(** * Candidate image-pair generation and closed-form triangulation

    A shallow embedding of [colmap/feature/pairing.h] (the pairing option
    structs and the [PairGenerator] family it declares) and of
    [colmap/geometry/triangulation.cc], followed by the properties proved
    about them.

    Layout: Part I holds the definitions, Part II the lemmas and theorems. *)

From Stdlib Require Import ZArith QArith String Lia.
From stdpp Require Import base list sorting gmap.

Local Open Scope Z_scope.

(* ===================================================================== *)
(** * Part I: the embedding                                               *)
(* ===================================================================== *)

(** ** Machine integers

    [int] is a 32-bit two's-complement integer and [size_t] a 64-bit
    unsigned one.  Both are carried as [Z]: an [int] is a [Z] that is
    [in_int_range], a [size_t] a [Z] in [0, 2^64). *)

Definition in_int_range (z : Z) : Prop := - 2 ^ 31 <= z < 2 ^ 31.

Definition in_int_rangeb (z : Z) : bool := (- 2 ^ 31 <=? z) && (z <? 2 ^ 31).

(** [a * b] on [int].  Signed overflow is undefined behaviour: the product
    has a value only when it is an [int], and is [None] otherwise. *)
Definition int_mul (a b : Z) : option Z :=
  if in_int_rangeb (a * b) then Some (a * b) else None.

(** The implicit conversion [int -> size_t] of a [return] statement: the
    value modulo [2^64], defined for every [int]. *)
Definition size_t_of_int (z : Z) : Z := z mod 2 ^ 64.

(** [image_t] is an unsigned 32-bit identifier; only equality and order on
    it are used by the code modelled here. *)
Definition image_t := N.

(** ** The pairing option structs (pairing.h, lines 43-208)

    Every struct is a record of its fields; [CacheSize] is the inline member
    function of the header, applied to the struct it is a member of.  Its
    result is [None] when the [int] expression it returns overflows. *)

Module ExhaustivePairingOptions.
Record t := mk { block_size : Z }.
(* inline size_t CacheSize() const { return block_size; } *)
Definition CacheSize (o : t) : option Z := Some (size_t_of_int (block_size o)).
End ExhaustivePairingOptions.

Module VocabTreePairingOptions.
Record t := mk {
  num_images : Z;
  num_nearest_neighbors : Z;
  num_checks : Z;
  num_images_after_verification : Z;
  max_num_features : Z;
  vocab_tree_path : string;
  match_list_path : string;
  num_threads : Z }.
(* inline size_t CacheSize() const { return 5 * num_images; } *)
Definition CacheSize (o : t) : option Z :=
  match int_mul 5 (num_images o) with
  | Some r => Some (size_t_of_int r)
  | None => None
  end.
End VocabTreePairingOptions.

Module SequentialPairingOptions.
Record t := mk {
  overlap : Z;
  quadratic_overlap : bool;
  expand_rig_images : bool;
  loop_detection : bool;
  loop_detection_period : Z;
  loop_detection_num_images : Z;
  loop_detection_num_nearest_neighbors : Z;
  loop_detection_num_checks : Z;
  loop_detection_num_images_after_verification : Z;
  loop_detection_max_num_features : Z;
  num_threads : Z;
  vocab_tree_path : string }.
(* inline size_t CacheSize() const {
     return std::max(5 * loop_detection_num_images, 5 * overlap); } *)
Definition CacheSize (o : t) : option Z :=
  match int_mul 5 (loop_detection_num_images o), int_mul 5 (overlap o) with
  | Some a, Some b => Some (size_t_of_int (Z.max a b))
  | _, _ => None
  end.
End SequentialPairingOptions.

Module SpatialPairingOptions.
Record t := mk {
  ignore_z : bool;
  max_num_neighbors : Z;
  min_num_neighbors : Z;
  max_distance : Q;
  num_threads : Z }.
(* inline size_t CacheSize() const { return 5 * max_num_neighbors; } *)
Definition CacheSize (o : t) : option Z :=
  match int_mul 5 (max_num_neighbors o) with
  | Some r => Some (size_t_of_int r)
  | None => None
  end.
End SpatialPairingOptions.

Module TransitivePairingOptions.
Record t := mk { batch_size : Z; num_iterations : Z }.
(* inline size_t CacheSize() const { return 2 * batch_size; } *)
Definition CacheSize (o : t) : option Z :=
  match int_mul 2 (batch_size o) with
  | Some r => Some (size_t_of_int r)
  | None => None
  end.
End TransitivePairingOptions.

Module ImportedPairingOptions.
Record t := mk { block_size : Z; match_list_path : string }.
(* inline size_t CacheSize() const { return block_size; } *)
Definition CacheSize (o : t) : option Z := Some (size_t_of_int (block_size o)).
End ImportedPairingOptions.

(** The six structs as one tagged value, so that a statement can range over
    "every pairing options struct". *)
Inductive PairingOptions :=
| OfExhaustive (o : ExhaustivePairingOptions.t)
| OfVocabTree (o : VocabTreePairingOptions.t)
| OfSequential (o : SequentialPairingOptions.t)
| OfSpatial (o : SpatialPairingOptions.t)
| OfTransitive (o : TransitivePairingOptions.t)
| OfImported (o : ImportedPairingOptions.t).

Definition CacheSize (o : PairingOptions) : option Z :=
  match o with
  | OfExhaustive o => ExhaustivePairingOptions.CacheSize o
  | OfVocabTree o => VocabTreePairingOptions.CacheSize o
  | OfSequential o => SequentialPairingOptions.CacheSize o
  | OfSpatial o => SpatialPairingOptions.CacheSize o
  | OfTransitive o => TransitivePairingOptions.CacheSize o
  | OfImported o => ImportedPairingOptions.CacheSize o
  end.

(** The integer fields [CacheSize] reads, per struct: the only part of the
    struct its body mentions. *)
Definition CacheSizeInputs (o : PairingOptions) : list Z :=
  match o with
  | OfExhaustive o => [ExhaustivePairingOptions.block_size o]
  | OfVocabTree o => [VocabTreePairingOptions.num_images o]
  | OfSequential o =>
      [SequentialPairingOptions.loop_detection_num_images o;
       SequentialPairingOptions.overlap o]
  | OfSpatial o => [SpatialPairingOptions.max_num_neighbors o]
  | OfTransitive o => [TransitivePairingOptions.batch_size o]
  | OfImported o => [ImportedPairingOptions.block_size o]
  end.

(** The products each [CacheSize] computes on [int], per struct, as
    mathematical integers. *)
Definition CacheSizeProducts (o : PairingOptions) : list Z :=
  match o with
  | OfExhaustive _ => []
  | OfVocabTree o => [5 * VocabTreePairingOptions.num_images o]
  | OfSequential o =>
      [5 * SequentialPairingOptions.loop_detection_num_images o;
       5 * SequentialPairingOptions.overlap o]
  | OfSpatial o => [5 * SpatialPairingOptions.max_num_neighbors o]
  | OfTransitive o => [2 * TransitivePairingOptions.batch_size o]
  | OfImported _ => []
  end.

(** Which of the six structs a tagged value holds. *)
Definition strategy_tag (o : PairingOptions) : nat :=
  match o with
  | OfExhaustive _ => 0 | OfVocabTree _ => 1 | OfSequential _ => 2
  | OfSpatial _ => 3 | OfTransitive _ => 4 | OfImported _ => 5
  end%nat.

(** ** Closed-form triangulation (triangulation.cc)

    The four functions are modelled over an abstract numeric kernel: the
    scalar type [double] with the operations the source applies to it, and
    the Eigen decompositions and the helpers of [pose.h] and
    [essential_matrix.h] the source calls.  What is modelled in full is the
    control flow: the checks, their order, the early returns, the loop with
    its element accesses, and every store through the output pointer. *)

Class Scalar := {
  double : Type;
  d_zero : double;
  d_one : double;
  d_half : double;
  d_epsilon : double;            (* std::numeric_limits<double>::epsilon() *)
  d_add : double -> double -> double;
  d_sub : double -> double -> double;
  d_mul : double -> double -> double;
  d_div : double -> double -> double;
  d_neg : double -> double;
  d_sqrt : double -> double;
  d_eqb : double -> double -> bool;   (* operator== *)
  d_leb : double -> double -> bool    (* operator<= *)
}.

(** Eigen's [ComputationInfo]. *)
Inductive ComputationInfo := Success | NumericalIssue | NoConvergence | InvalidInput.

Definition is_Success (i : ComputationInfo) : bool :=
  match i with Success => true | _ => false end.

Section LinearAlgebra.
Context {scalar : Scalar}.

Record Vector2d := V2 { v2_0 : double; v2_1 : double }.
Record Vector3d := V3 { v3_0 : double; v3_1 : double; v3_2 : double }.

(** Fixed-size matrices are kept as their rows; [coeff m i j] is [m(i, j)]. *)
Definition RowVector := list double.
Definition Matrix := list RowVector.

Definition coeff (m : Matrix) (i j : nat) : double :=
  nth j (nth i m []) d_zero.
Definition row (m : Matrix) (i : nat) : RowVector := nth i m [].
Definition col (m : Matrix) (j : nat) : list double :=
  map (fun r => nth j r d_zero) m.

Definition row_scale (s : double) (r : RowVector) : RowVector := map (d_mul s) r.
Fixpoint row_zip (f : double -> double -> double) (a b : RowVector) : RowVector :=
  match a, b with
  | x :: a', y :: b' => f x y :: row_zip f a' b'
  | _, _ => []
  end.
Definition row_sub := row_zip d_sub.
Definition row_add := row_zip d_add.
Definition dot (a b : list double) : double :=
  fold_right d_add d_zero (row_zip d_mul a b).

Fixpoint mat_zip (f : double -> double -> double) (a b : Matrix) : Matrix :=
  match a, b with
  | r :: a', s :: b' => row_zip f r s :: mat_zip f a' b'
  | _, _ => []
  end.
Definition mat_add := mat_zip d_add.
Definition mat_sub := mat_zip d_sub.
Definition mat_transpose (cols : nat) (m : Matrix) : Matrix :=
  map (fun j => col m j) (seq 0 cols).
Definition mat_mul (cols_b : nat) (a b : Matrix) : Matrix :=
  map (fun r => map (fun j => dot r (col b j)) (seq 0 cols_b)) a.

(* Eigen::Matrix4d::Zero() *)
Definition Matrix4d_Zero : Matrix := repeat (repeat d_zero 4%nat) 4%nat.

(* v.hnormalized() for a 4-vector and for a 3-vector *)
Definition hnormalized4 (v : list double) : Vector3d :=
  let w := nth 3 v d_zero in
  V3 (d_div (nth 0 v d_zero) w) (d_div (nth 1 v d_zero) w) (d_div (nth 2 v d_zero) w).
Definition hnormalized3 (v : list double) : Vector2d :=
  let w := nth 2 v d_zero in
  V2 (d_div (nth 0 v d_zero) w) (d_div (nth 1 v d_zero) w).

(* p.homogeneous().normalized() for a 2-vector *)
Definition homogeneous_normalized (p : Vector2d) : list double :=
  let n := d_sqrt (d_add (d_add (d_mul (v2_0 p) (v2_0 p)) (d_mul (v2_1 p) (v2_1 p)))
                         (d_mul d_one d_one)) in
  [d_div (v2_0 p) n; d_div (v2_1 p) n; d_div d_one n].

Definition v3_scale (s : double) (v : Vector3d) : Vector3d :=
  V3 (d_mul s (v3_0 v)) (d_mul s (v3_1 v)) (d_mul s (v3_2 v)).
Definition v3_add (a b : Vector3d) : Vector3d :=
  V3 (d_add (v3_0 a) (v3_0 b)) (d_add (v3_1 a) (v3_1 b)) (d_add (v3_2 a) (v3_2 b)).
Definition v3_neg (a : Vector3d) : Vector3d :=
  V3 (d_neg (v3_0 a)) (d_neg (v3_1 a)) (d_neg (v3_2 a)).

End LinearAlgebra.

(** The library calls of the source: Eigen's decompositions, its quaternion
    operations, and the helpers declared in [pose.h] and
    [essential_matrix.h].  Each decomposition yields its [info()] and the
    matrix the source reads from it. *)
Class EigenKernel {scalar : Scalar} := {
  (* Eigen::JacobiSVD<Matrix4d>(A, ComputeFullV): info(), matrixV() *)
  JacobiSVD4 : Matrix -> ComputationInfo * Matrix;
  (* Eigen::JacobiSVD<Matrix3d>(A, ComputeFullV): info(), matrixV() *)
  JacobiSVD3 : Matrix -> ComputationInfo * Matrix;
  (* Eigen::SelfAdjointEigenSolver<Matrix4d>(A): info(), eigenvectors() *)
  SelfAdjointEigenSolver4 : Matrix -> ComputationInfo * Matrix;
  Quaterniond : Type;
  quat_of_rotation_matrix : Matrix -> Quaterniond;
  quat_inverse : Quaterniond -> Quaterniond;
  quat_rotate : Quaterniond -> Vector3d -> Vector3d;
  (* Rigid3d * Rigid3d and Inverse(Rigid3d), on (rotation, translation) *)
  rigid3_compose :
    Quaterniond * Vector3d -> Quaterniond * Vector3d -> Quaterniond * Vector3d;
  rigid3_inverse : Quaterniond * Vector3d -> Quaterniond * Vector3d;
  EssentialMatrixFromPose : Quaterniond * Vector3d -> Matrix;
  FindOptimalImageObservations :
    Matrix -> Vector2d -> Vector2d -> Vector2d * Vector2d;
  (* #if EIGEN_VERSION_AT_LEAST(3, 4, 0) *)
  eigen_version_at_least_3_4_0 : bool
}.

(** *** Effects: stores through the output pointer, thrown checks

    A call either runs to its [return], or leaves through a throwing
    [THROW_CHECK], or has undefined behaviour (a store through a null
    pointer, an element access past the end of a span).  The stores made
    before that point are recorded in order. *)

Inductive pointer := nullptr | ptr (addr : N).

Inductive exception := CheckFailed (what : string).

Inductive completion (A : Type) :=
| Return (a : A)
| Throw (e : exception)
| Undefined.
Arguments Return {A} a.
Arguments Throw {A} e.
Arguments Undefined {A}.

Section Effects.
Context {scalar : Scalar}.

(** One store [*p = v] is the address and the value written. *)
Definition store_log := list (N * Vector3d).

Definition exec (A : Type) := (store_log * completion A)%type.

Definition ret {A} (a : A) : exec A := ([], Return a).

Definition bind {A B} (m : exec A) (k : A -> exec B) : exec B :=
  match m with
  | (w, Return a) => let '(w', c) := k a in (w ++ w', c)
  | (w, Throw e) => (w, Throw e)
  | (w, Undefined) => (w, Undefined)
  end.

Definition throw {A} (what : string) : exec A := ([], Throw (CheckFailed what)).

(* THROW_CHECK_NOTNULL(p) *)
Definition THROW_CHECK_NOTNULL (p : pointer) : exec unit :=
  match p with
  | nullptr => throw "THROW_CHECK_NOTNULL"
  | ptr _ => ret tt
  end.

(* THROW_CHECK_EQ(a, b) on two sizes *)
Definition THROW_CHECK_EQ (a b : nat) : exec unit :=
  if Nat.eqb a b then ret tt else throw "THROW_CHECK_EQ".

(* *p = v *)
Definition store (p : pointer) (v : Vector3d) : exec unit :=
  match p with
  | nullptr => ([], Undefined)
  | ptr a => ([(a, v)], Return tt)
  end.

(* s[i] on a span: past the end is undefined behaviour *)
Definition span_at {A} (s : list A) (i : nat) : exec A :=
  match nth_error s i with
  | Some a => ret a
  | None => ([], Undefined)
  end.

End Effects.

Notation "'do' x <- m ; k" := (bind m (fun x => k))
  (at level 10, x name, m at level 100, k at level 200).

Section Triangulation.
Context {scalar : Scalar} {kernel : EigenKernel}.

(** [TriangulatePoint] (triangulation.cc, lines 40-66).  The camera
    matrices are 3x4, the observations 2-vectors. *)
Definition TriangulatePoint (cam1_from_world cam2_from_world : Matrix)
    (cam_point1 cam_point2 : Vector2d) (xyz : pointer) : exec bool :=
  do u <- THROW_CHECK_NOTNULL xyz ;
  let A : Matrix :=
    [ row_sub (row_scale (v2_0 cam_point1) (row cam1_from_world 2)) (row cam1_from_world 0);
      row_sub (row_scale (v2_1 cam_point1) (row cam1_from_world 2)) (row cam1_from_world 1);
      row_sub (row_scale (v2_0 cam_point2) (row cam2_from_world 2)) (row cam2_from_world 0);
      row_sub (row_scale (v2_1 cam_point2) (row cam2_from_world 2)) (row cam2_from_world 1) ] in
  let '(info, matrixV) := JacobiSVD4 A in
  if eigen_version_at_least_3_4_0 && negb (is_Success info) then ret false
  else if d_eqb (coeff matrixV 3 3) d_zero then ret false
  else
    do u <- store xyz (hnormalized4 (col matrixV 3)) ;
    ret true.

(** [TriangulateMidPoint] (lines 68-106).  [cam2_from_cam1] is a [Rigid3d],
    given by its rotation and its translation.  The source does not check
    the output pointer here. *)
Definition TriangulateMidPoint (cam2_from_cam1 : Quaterniond * Vector3d)
    (cam_ray1 cam_ray2 : Vector3d) (point3D_in_cam1 : pointer) : exec bool :=
  let cam1_from_cam2_rotation := quat_inverse (fst cam2_from_cam1) in
  let cam_ray2_in_cam1 := quat_rotate cam1_from_cam2_rotation cam_ray2 in
  let cam2_in_cam1 :=
    quat_rotate cam1_from_cam2_rotation (v3_neg (snd cam2_from_cam1)) in
  let A : Matrix :=
    [ [v3_0 cam_ray1; d_neg (v3_0 cam_ray2_in_cam1); d_neg (v3_0 cam2_in_cam1)];
      [v3_1 cam_ray1; d_neg (v3_1 cam_ray2_in_cam1); d_neg (v3_1 cam2_in_cam1)];
      [v3_2 cam_ray1; d_neg (v3_2 cam_ray2_in_cam1); d_neg (v3_2 cam2_in_cam1)] ] in
  let '(info, matrixV) := JacobiSVD3 A in
  if eigen_version_at_least_3_4_0 && negb (is_Success info) then ret false
  else if d_eqb (coeff matrixV 2 2) d_zero then ret false
  else
    let lambda := hnormalized3 (col matrixV 2) in
    (* Check if point is behind cameras. *)
    if d_leb (v2_0 lambda) d_epsilon || d_leb (v2_1 lambda) d_epsilon then ret false
    else
      do u <- store point3D_in_cam1
                (v3_scale d_half
                   (v3_add (v3_add (v3_scale (v2_0 lambda) cam_ray1) cam2_in_cam1)
                           (v3_scale (v2_1 lambda) cam_ray2_in_cam1))) ;
      ret true.

(** The body of the accumulation loop of [TriangulateMultiViewPoint]
    (lines 117-120): what is added to [A] for one view. *)
Definition multi_view_term (cam_from_world : Matrix) (cam_point : Vector2d) : Matrix :=
  let point := homogeneous_normalized cam_point in
  let point_point_t : Matrix := map (fun a => map (d_mul a) point) point in
  let term := mat_sub cam_from_world (mat_mul 4 point_point_t cam_from_world) in
  mat_mul 4 (mat_transpose 4 term) term.

(** [for (size_t i = 0; i < cam_points.size(); i++)]: [n] counts the
    iterations left, [i] is the loop variable; both spans are read at [i]. *)
Fixpoint multi_view_loop (cams_from_world : list Matrix) (cam_points : list Vector2d)
    (n i : nat) (A : Matrix) : exec Matrix :=
  match n with
  | O => ret A
  | S n' =>
      do cam_point <- span_at cam_points i ;
      do cam_from_world <- span_at cams_from_world i ;
      multi_view_loop cams_from_world cam_points n' (S i)
        (mat_add A (multi_view_term cam_from_world cam_point))
  end.

(** [TriangulateMultiViewPoint] (lines 108-131). *)
Definition TriangulateMultiViewPoint (cams_from_world : list Matrix)
    (cam_points : list Vector2d) (xyz : pointer) : exec bool :=
  do u <- THROW_CHECK_EQ (length cams_from_world) (length cam_points) ;
  do u <- THROW_CHECK_NOTNULL xyz ;
  do A <- multi_view_loop cams_from_world cam_points (length cam_points) 0 Matrix4d_Zero ;
  let '(info, eigenvectors) := SelfAdjointEigenSolver4 A in
  if negb (is_Success info) || d_eqb (coeff eigenvectors 3 0) d_zero then ret false
  else
    do u <- store xyz (hnormalized4 (col eigenvectors 0)) ;
    ret true.

(* m.leftCols<3>() and m.col(3) of a 3x4 matrix *)
Definition leftCols3 (m : Matrix) : Matrix := map (firstn 3) m.
Definition col3_as_vector (m : Matrix) : Vector3d :=
  V3 (coeff m 0 3) (coeff m 1 3) (coeff m 2 3).

(** [TriangulateOptimalPoint] (lines 133-157). *)
Definition TriangulateOptimalPoint (cam1_from_world_mat cam2_from_world_mat : Matrix)
    (cam_point1 cam_point2 : Vector2d) (xyz : pointer) : exec bool :=
  let cam1_from_world :=
    (quat_of_rotation_matrix (leftCols3 cam1_from_world_mat),
     col3_as_vector cam1_from_world_mat) in
  let cam2_from_world :=
    (quat_of_rotation_matrix (leftCols3 cam2_from_world_mat),
     col3_as_vector cam2_from_world_mat) in
  let cam2_from_cam1 := rigid3_compose cam2_from_world (rigid3_inverse cam1_from_world) in
  let E := EssentialMatrixFromPose cam2_from_cam1 in
  let '(optimal_point1, optimal_point2) :=
    FindOptimalImageObservations E cam_point1 cam_point2 in
  TriangulatePoint cam1_from_world_mat cam2_from_world_mat
    optimal_point1 optimal_point2 xyz.

End Triangulation.

(** ** The [PairGenerator] contract (pairing.h, lines 220-231)

    The header declares the interface; the bodies of the generators live in
    [pairing.cc]. *)

Definition ImagePair := (image_t * image_t)%type.

Class PairGenerator (G : Type) := {
  Reset : G -> G;
  HasFinished : G -> bool;
  Next : G -> list ImagePair * G
}.

(** Modelled from the spec: the body of [PairGenerator::AllPairs] is missing
    (only its declaration is in the header).  Section 4.1: "default
    implementation: reset, loop Next until finished, concatenate".  The
    [while] loop runs on [fuel]; [None] means the fuel ran out before
    [HasFinished]. *)
Fixpoint drain {G} `{PairGenerator G} (fuel : nat) (g : G)
    : option (list (list ImagePair) * G) :=
  if HasFinished g then Some ([], g)
  else match fuel with
       | O => None
       | S fuel' =>
           let '(batch, g') := Next g in
           match drain fuel' g' with
           | Some (batches, g'') => Some (batch :: batches, g'')
           | None => None
           end
       end.

Definition AllPairs {G} `{PairGenerator G} (fuel : nat) (g : G)
    : option (list ImagePair * G) :=
  match drain fuel (Reset g) with
  | Some (batches, g') => Some (concat batches, g')
  | None => None
  end.

(** Modelled from the spec: the canonical pair id (section 3), "a bijective,
    order-independent encoding of (min(a,b), max(a,b)) into one integer".
    Its packing into one integer is owned by the database code, which is
    missing; the key is kept here as the ordered couple it encodes. *)
Definition image_pair_t := (image_t * image_t)%type.

Definition ImagePairToPairId (a b : image_t) : image_pair_t :=
  (N.min a b, N.max a b).

Definition PairId (p : ImagePair) : image_pair_t :=
  ImagePairToPairId (fst p) (snd p).

(* image_ids_.at(idx), for an index the generators keep in range *)
Definition at_ (ids : list image_t) (idx : nat) : image_t := nth idx ids 0%N.

(** ** ExhaustivePairGenerator (pairing.h, lines 233-257)

    The record holds the members the header declares.  Indices and sizes
    are [size_t] in the source and natural numbers here: every one of them
    is bounded by the length of [image_ids_] plus [block_size_]. *)
Module ExhaustivePairGenerator.

Record t := mk {
  options_ : ExhaustivePairingOptions.t;
  image_ids_ : list image_t;
  block_size_ : nat;
  num_blocks_ : nat;
  start_idx1_ : nat;
  start_idx2_ : nat;
  image_pairs_ : list ImagePair
}.

(** Modelled from the spec: the constructor is missing.  [block_size_] is
    the option's [block_size]; [num_blocks_] the number of blocks along one
    side of the matrix, the ceiling of [N / block_size_]. *)
Definition new (options : ExhaustivePairingOptions.t) (image_ids : list image_t) : t :=
  let bs := Z.to_nat (ExhaustivePairingOptions.block_size options) in
  mk options image_ids bs ((length image_ids + bs - 1) / bs) 0 0 [].

(** Modelled from the spec: the body of [Reset] is missing.  Section 2:
    "Reset() rewinds to the initial state"; the two cursors start at 0
    (pairing.h, lines 254-255). *)
Definition Reset (g : t) : t :=
  mk (options_ g) (image_ids_ g) (block_size_ g) (num_blocks_ g) 0 0 (image_pairs_ g).

(** Modelled from the spec: the body of [HasFinished] is missing.  Section
    4.2: "HasFinished() is true once start_idx1 has advanced past the last
    block". *)
Definition HasFinished (g : t) : bool :=
  (length (image_ids_ g) <=? start_idx1_ g)%nat.

(** Modelled from the spec: the loops of [Next] are missing.  Section 4.2:
    "within a block, only pairs with idx1 < idx2 are emitted (diagonal and
    lower triangle skipped to avoid self-pairs and duplicates)"; "pairs
    within a block in (idx1, idx2) lexicographic order".  The block has its
    corner at [start_idx1], [start_idx2] and is cut at the end of the
    corpus. *)
Definition block_index_pairs (n bs start_idx1 start_idx2 : nat) : list (nat * nat) :=
  let end_idx1 := Nat.min n (start_idx1 + bs) in
  let end_idx2 := Nat.min n (start_idx2 + bs) in
  flat_map (fun idx1 =>
    flat_map (fun idx2 => if (idx1 <? idx2)%nat then [(idx1, idx2)] else [])
             (seq start_idx2 (end_idx2 - start_idx2)))
    (seq start_idx1 (end_idx1 - start_idx1)).

(* (image_ids_[idx1], image_ids_[idx2]) *)
Definition ids_of (ids : list image_t) (p : nat * nat) : ImagePair :=
  (at_ ids (fst p), at_ ids (snd p)).

(** Modelled from the spec: the body of [Next] is missing.  Section 4.2:
    "Two cursors (start_idx1, start_idx2) walk block-by-block"; "order =
    blocks in row-major scan"; section 3: a finished generator returns an
    empty batch.  The scan visits every block of the tiling, row by row; a
    block under the diagonal holds no pair with [idx1 < idx2] and yields an
    empty batch. *)
Definition Next (g : t) : list ImagePair * t :=
  if HasFinished g then
    ([], mk (options_ g) (image_ids_ g) (block_size_ g) (num_blocks_ g)
            (start_idx1_ g) (start_idx2_ g) [])
  else
    let n := length (image_ids_ g) in
    let pairs :=
      map (ids_of (image_ids_ g))
          (block_index_pairs n (block_size_ g) (start_idx1_ g) (start_idx2_ g)) in
    let start_idx2 := (start_idx2_ g + block_size_ g)%nat in
    if (n <=? start_idx2)%nat then
      (pairs, mk (options_ g) (image_ids_ g) (block_size_ g) (num_blocks_ g)
                 (start_idx1_ g + block_size_ g)%nat 0 pairs)
    else
      (pairs, mk (options_ g) (image_ids_ g) (block_size_ g) (num_blocks_ g)
                 (start_idx1_ g) start_idx2 pairs).

#[global] Instance generator : PairGenerator t :=
  Build_PairGenerator t Reset HasFinished Next.

(** The scan position of an index pair: the number of its block in the
    row-major scan of the [nb x nb] tiling by blocks of side [bs]. *)
Definition block_of (bs nb : nat) (p : nat * nat) : nat :=
  (fst p / bs * nb + snd p / bs)%nat.

(** Row-major block order, then [(idx1, idx2)] lexicographic order inside a
    block. *)
Definition scan_lt (bs nb : nat) (p q : nat * nat) : Prop :=
  (block_of bs nb p < block_of bs nb q)%nat \/
  (block_of bs nb p = block_of bs nb q /\
   ((fst p < fst q)%nat \/ (fst p = fst q /\ (snd p < snd q)%nat))).

Definition lex_lt (p q : nat * nat) : Prop :=
  (fst p < fst q)%nat \/ (fst p = fst q /\ (snd p < snd q)%nat).

(** The block the scan visits at its [k]-th step, counting from 0. *)
Definition scan_block (n bs k : nat) : list (nat * nat) :=
  let nb := ((n + bs - 1) / bs)%nat in
  block_index_pairs n bs (k / nb * bs) (k mod nb * bs).

(** The generator stands at step [k] of the scan over [ids]. *)
Definition at_scan (ids : list image_t) (bs k : nat) (g : t) : Prop :=
  let nb := ((length ids + bs - 1) / bs)%nat in
  image_ids_ g = ids /\ block_size_ g = bs /\
  start_idx1_ g = (k / nb * bs)%nat /\ start_idx2_ g = (k mod nb * bs)%nat.

(** All index pairs [(i, j)] with [i < j < n], column by column. *)
Definition upper_pairs (n : nat) : list (nat * nat) :=
  flat_map (fun j => map (fun i => (i, j)) (seq 0 j)) (seq 0 n).

End ExhaustivePairGenerator.

(** ** SpatialPairGenerator (pairing.h, lines 329-357)

    The record holds the members the header declares.  Coordinates and
    squared distances are floating-point in the source (a float matrix) and
    exact rationals here: the generator only compares them, and two priors
    closer than the resolution of [float] are at distance 0 in the source
    and apart here. *)
Module SpatialPairGenerator.

Definition position := (Q * Q * Q)%type.

Record t := mk {
  options_ : SpatialPairingOptions.t;
  image_pairs_ : list ImagePair;
  index_matrix_ : list (list nat);
  distance_squared_matrix_ : list (list Q);
  image_ids_ : list image_t;
  position_idxs_ : list nat;
  current_idx_ : nat;
  knn_ : Z
}.

(** Modelled from the spec: [ReadPositionPriorData] is missing.  Section
    4.4: "Images without a prior are excluded from the neighbor search
    entirely"; "optionally ignoring the vertical/Z axis".  The result lists,
    for every image that has a prior, its index in [image_ids_] and its
    position; [i] is the index of the head of [priors]. *)
Fixpoint ReadPositionPriorData (ignore_z : bool) (i : nat)
    (priors : list (image_t * option position)) : list (nat * position) :=
  match priors with
  | [] => []
  | (_, Some (x, y, z)) :: rest =>
      (i, (x, y, if ignore_z then 0%Q else z))
        :: ReadPositionPriorData ignore_z (S i) rest
  | (_, None) :: rest => ReadPositionPriorData ignore_z (S i) rest
  end.

(** Modelled from the spec: the distance computation is missing.  Section
    4.4: "a squared-distance matrix". *)
Definition distance_squared (p q : position) : Q :=
  let '(x1, y1, z1) := p in
  let '(x2, y2, z2) := q in
  ((x1 - x2) * (x1 - x2) + (y1 - y2) * (y1 - y2) + (z1 - z2) * (z1 - z2))%Q.

(** Modelled from the spec: the k-nearest-neighbor search is missing.
    Section 4.4: "Tie-break for neighbor ordering: ascending squared
    distance; ties broken by ascending candidate ImageId".  A candidate is
    its squared distance to the query, its image id and its row. *)
Definition candidate := (Q * image_t * nat)%type.

Definition candidate_leb (a b : candidate) : bool :=
  let '(d1, id1, _) := a in
  let '(d2, id2, _) := b in
  match Qcompare d1 d2 with
  | Lt => true
  | Gt => false
  | Eq => (id1 <=? id2)%N
  end.

(** Modelled from the spec: the search library is missing; the neighbors
    are put in the order of [candidate_leb] by insertion. *)
Fixpoint insert_candidate (x : candidate) (l : list candidate) : list candidate :=
  match l with
  | [] => [x]
  | y :: l' => if candidate_leb x y then x :: l else y :: insert_candidate x l'
  end.

Definition sort_candidates (l : list candidate) : list candidate :=
  fold_right insert_candidate [] l.

(** Modelled from the spec: the k-nearest-neighbor search is missing.
    Section 4.4: "via a k-nearest-neighbor search over the position set".
    The [knn] nearest neighbors of the query in row [r]: every other row,
    nearest first. *)
Definition nearest (ids : list image_t) (rows : list (nat * position)) (knn : nat)
    (r : nat) : list candidate :=
  let q := snd (nth r rows (0%nat, (0, 0, 0)%Q)) in
  firstn knn
    (sort_candidates
       (flat_map (fun r' =>
          if Nat.eqb r' r then []
          else let e := nth r' rows (0%nat, (0, 0, 0)%Q) in
               [(distance_squared q (snd e), at_ ids (fst e), r')])
          (seq 0 (length rows)))).

(** Modelled from the spec: the loop that fills [image_pairs_] is missing.
    Section 4.4: "a neighbor is kept if its distance <= max_distance, with a
    floor guarantee: the closest min_num_neighbors are always kept
    regardless of max_distance".  [j] is the column of the head of the two
    rows; the result lists the rows of the neighbors kept. *)
Fixpoint kept_neighbors (min_num_neighbors : Z) (max_distance_squared : Q) (j : nat)
    (index_row : list nat) (distance_row : list Q) : list nat :=
  match index_row, distance_row with
  | nn :: index_row', d :: distance_row' =>
      if (Z.of_nat j <? min_num_neighbors)%Z || Qle_bool d max_distance_squared
      then nn :: kept_neighbors min_num_neighbors max_distance_squared (S j)
                   index_row' distance_row'
      else kept_neighbors min_num_neighbors max_distance_squared (S j)
             index_row' distance_row'
  | _, _ => []
  end.

(** Modelled from the spec: the loop that fills [image_pairs_] is missing.
    Section 4.4: "Emits one pair per (image, kept-neighbor)"; these are the
    pairs of the image in row [r]. *)
Definition row_pairs (options : SpatialPairingOptions.t) (ids : list image_t)
    (position_idxs : list nat) (index_matrix : list (list nat))
    (distance_squared_matrix : list (list Q)) (r : nat) : list ImagePair :=
  let max_distance := SpatialPairingOptions.max_distance options in
  map (fun nn => (at_ ids (nth r position_idxs 0%nat), at_ ids (nth nn position_idxs 0%nat)))
      (kept_neighbors (SpatialPairingOptions.min_num_neighbors options)
         (max_distance * max_distance)%Q 0
         (nth r index_matrix []) (nth r distance_squared_matrix [])).

(** Modelled from the spec: the constructor is missing.  Section 4.4: the
    two matrices have "shape [num_positioned_images, k] where k =
    min(max_num_neighbors, num_positioned_images - 1)"; the pairs of all
    rows are flattened into [image_pairs_]. *)
Definition new (options : SpatialPairingOptions.t)
    (priors : list (image_t * option position)) : t :=
  let ids := map fst priors in
  let rows := ReadPositionPriorData (SpatialPairingOptions.ignore_z options) 0 priors in
  let position_idxs := map fst rows in
  let knn := Z.min (SpatialPairingOptions.max_num_neighbors options)
                   (Z.of_nat (length rows) - 1) in
  let found := map (nearest ids rows (Z.to_nat knn)) (seq 0 (length rows)) in
  let index_matrix := map (map snd) found in
  let distance_squared_matrix := map (map (fun c => fst (fst c))) found in
  mk options
     (flat_map (row_pairs options ids position_idxs index_matrix distance_squared_matrix)
               (seq 0 (length rows)))
     index_matrix distance_squared_matrix ids position_idxs 0 knn.

(** Modelled from the spec: the body of [Reset] is missing.  Section 2:
    "Reset() rewinds to the initial state". *)
Definition Reset (g : t) : t :=
  mk (options_ g) (image_pairs_ g) (index_matrix_ g) (distance_squared_matrix_ g)
     (image_ids_ g) (position_idxs_ g) 0 (knn_ g).

(** Modelled from the spec: the body of [HasFinished] is missing; the
    generator has finished when the cursor is past the last pair. *)
Definition HasFinished (g : t) : bool :=
  (length (image_pairs_ g) <=? current_idx_ g)%nat.

(** Modelled from the spec: the body of [Next] is missing.  Section 4.4:
    "Next() advances a linear cursor over the flattened pair list"; a batch
    is the pair under the cursor. *)
Definition Next (g : t) : list ImagePair * t :=
  match nth_error (image_pairs_ g) (current_idx_ g) with
  | None => ([], g)
  | Some p =>
      ([p], mk (options_ g) (image_pairs_ g) (index_matrix_ g)
               (distance_squared_matrix_ g) (image_ids_ g) (position_idxs_ g)
               (S (current_idx_ g)) (knn_ g))
  end.

#[global] Instance generator : PairGenerator t :=
  Build_PairGenerator t Reset HasFinished Next.

(** The image in row [r] of the two matrices. *)
Definition image_of_row (g : t) (r : nat) : image_t :=
  at_ (image_ids_ g) (nth r (position_idxs_ g) 0%nat).

(** The pairs of [pairs] in which image [a] is the query. *)
Definition pairs_from (a : image_t) (pairs : list ImagePair) : list ImagePair :=
  List.filter (fun p => N.eqb (fst p) a) pairs.

(** *** The input of the generator, as the floor property speaks of it

    The images of [priors] that have a position prior, each with its prior,
    in the order of [priors]. *)
Definition positioned (priors : list (image_t * option position))
    : list (image_t * position) :=
  flat_map (fun e => match snd e with Some p => [(fst e, p)] | None => [] end) priors.

(** Those of them other than image [a]. *)
Definition other_positioned (a : image_t) (priors : list (image_t * option position))
    : list (image_t * position) :=
  List.filter (fun c => negb (N.eqb (fst c) a)) (positioned priors).

(** The squared distance between two position priors, the vertical axis
    left out when [ignore_z] is set. *)
Definition separation (ignore_z : bool) (p q : position) : Q :=
  let '(x1, y1, z1) := p in
  let '(x2, y2, z2) := q in
  let v1 := if ignore_z then 0%Q else z1 in
  let v2 := if ignore_z then 0%Q else z2 in
  ((x1 - x2) * (x1 - x2) + (y1 - y2) * (y1 - y2) + (v1 - v2) * (v1 - v2))%Q.

(** The image and the prior behind a search result: those of its row. *)
Definition neighbor_of (priors : list (image_t * option position)) (c : candidate)
    : image_t * position :=
  nth (snd c) (positioned priors) (0%N, (0, 0, 0)%Q).

(** A position as [ReadPositionPriorData] stores it. *)
Definition projected (ignore_z : bool) (p : position) : position :=
  let '(x, y, z) := p in (x, y, if ignore_z then 0%Q else z).

(** The order of the search results, as a relation. *)
Definition candidate_le (a b : candidate) : Prop := candidate_leb a b = true.

(** Three images with one and the same position prior, and the options of
    the floor property: [min_num_neighbors = 1], [max_distance = 0]. *)
Definition colocated_priors : list (image_t * option position) :=
  [(1%N, Some (2, 3, 0)%Q); (2%N, Some (2, 3, 0)%Q); (3%N, Some (2, 3, 0)%Q)].

Definition floor_options : SpatialPairingOptions.t :=
  SpatialPairingOptions.mk true 50 1 0 (-1).

(** The same with [max_num_neighbors = 1] and [min_num_neighbors = 0]. *)
Definition capped_options : SpatialPairingOptions.t :=
  SpatialPairingOptions.mk true 1 0 0 (-1).

(** Three images at pairwise different positions. *)
Definition spread_priors : list (image_t * option position) :=
  [(1%N, Some (0, 0, 0)%Q); (2%N, None); (3%N, Some (3, 4, 0)%Q);
   (4%N, Some (10, 0, 0)%Q)].

End SpatialPairGenerator.

(** ** TransitivePairGenerator (pairing.h, lines 359-383)

    The record holds the members the header declares; [cache_] is the
    cache the generator reads the existing pairs from, kept here as the list
    of pairs it reports. *)
Module TransitivePairGenerator.

Record t := mk {
  options_ : TransitivePairingOptions.t;
  cache_ : list ImagePair;
  current_iteration_ : Z;
  current_batch_idx_ : Z;
  current_num_batches_ : Z;
  image_pairs_ : list ImagePair;
  image_pair_ids_ : gset image_pair_t
}.

(** Modelled from the spec: the constructor is missing.  The counters
    start at 0 (pairing.h, lines 378-380), with no pending pair and no id. *)
Definition new (options : TransitivePairingOptions.t) (existing : list ImagePair) : t :=
  mk options existing 0 0 0 [] ∅.

(** Modelled from the spec: the body of [Reset] is missing.  Section 2:
    "Reset() rewinds to the initial state". *)
Definition Reset (g : t) : t :=
  mk (options_ g) (cache_ g) 0 0 0 [] ∅.

(** Modelled from the spec: [HasFinished] is missing.  Section 4.7: "true
    once num_iterations rounds are exhausted and no pending batch
    remains". *)
Definition HasFinished (g : t) : bool :=
  (TransitivePairingOptions.num_iterations (options_ g) <=? current_iteration_ g)%Z
  && match image_pairs_ g with [] => true | _ => false end.

(** Modelled from the spec: the graph construction is missing.  Section
    4.7: "Treats the accumulated pair set ... as an undirected graph":
    every known pair, in both directions. *)
Definition directed (known : list image_pair_t) : list (image_t * image_t) :=
  flat_map (fun e => [(fst e, snd e); (snd e, fst e)]) known.

(** Modelled from the spec: the closure loops are missing.  Section 4.7:
    "for every pair (a,b) already known, and every c such that (b,c) is
    known, propose (a,c)". *)
Definition proposals (edges : list (image_t * image_t)) : list ImagePair :=
  flat_map (fun ab =>
    flat_map (fun bc => if N.eqb (snd ab) (fst bc) then [(fst ab, snd bc)] else [])
             edges)
    edges.

(** Modelled from the spec: the candidate test is missing.  Section 4.7:
    "as a new candidate if a <> c and its canonical id has not
    already been emitted (hash-set membership check against image_pair_ids_,
    updated on emission)".  The state is the pending pairs and the id set. *)
Definition propose (st : list ImagePair * gset image_pair_t) (p : ImagePair)
    : list ImagePair * gset image_pair_t :=
  if N.eqb (fst p) (snd p) then st
  else if bool_decide (PairId p ∈ snd st) then st
  else (fst st ++ [p], {[PairId p]} ∪ snd st).

(** Modelled from the spec: one round of the closure (section 4.7: "in
    each round") over the accumulated pair set [known]. *)
Definition closure_round (known : gset image_pair_t)
    : list ImagePair * gset image_pair_t :=
  fold_left propose (proposals (directed (elements known))) ([], known).

(** Modelled from the spec: the batching is missing.  Section 4.7: "Work
    is drained in fixed-size batches (batch_size, default 1000)". *)
Definition take_batch (g : t) : list ImagePair * t :=
  let n := Z.to_nat (TransitivePairingOptions.batch_size (options_ g)) in
  (firstn n (image_pairs_ g),
   mk (options_ g) (cache_ g) (current_iteration_ g) (current_batch_idx_ g + 1)
      (current_num_batches_ g) (skipn n (image_pairs_ g)) (image_pair_ids_ g)).

(* the ceiling of a / b, for the batch count *)
Definition ceil_div (a b : Z) : Z := (a + b - 1) / b.

(** Modelled from the spec: the body of [Next] is missing.  Section 4.7:
    "performs num_iterations rounds of transitive closure".  With no
    pending pair left,
    the next round starts: the accumulated pair set is the pairs the cache
    reports together with the ids held in [image_pair_ids_]; its new
    candidates become the pending pairs.  A round without any candidate is
    followed by the next one at once ("returns the next non-empty batch, or
    empty exactly when exhausted", section 4.1); [rounds] bounds the rounds
    left. *)
Fixpoint next_round (rounds : nat) (g : t) : list ImagePair * t :=
  match rounds with
  | O => ([], g)
  | S rounds' =>
      if (TransitivePairingOptions.num_iterations (options_ g) <=? current_iteration_ g)%Z
      then ([], g)
      else
        let known := image_pair_ids_ g ∪ list_to_set (map PairId (cache_ g)) in
        let st := closure_round known in
        let g1 :=
          mk (options_ g) (cache_ g) (current_iteration_ g + 1) 0
             (ceil_div (Z.of_nat (length (fst st)))
                       (TransitivePairingOptions.batch_size (options_ g)))
             (fst st) (snd st) in
        match fst st with
        | [] => next_round rounds' g1
        | _ => take_batch g1
        end
  end.

(** Modelled from the spec: the body of [Next] is missing: the next batch
    of the pending pairs, or else the next round. *)
Definition Next (g : t) : list ImagePair * t :=
  match image_pairs_ g with
  | [] =>
      next_round
        (Z.to_nat (TransitivePairingOptions.num_iterations (options_ g)
                   - current_iteration_ g)) g
  | _ => take_batch g
  end.

#[global] Instance generator : PairGenerator t :=
  Build_PairGenerator t Reset HasFinished Next.

(** The seed graph of the dedup property: the path 1 - 2 - 3 - 4, with
    [num_iterations = 2] and the default batch size. *)
Definition path_options : TransitivePairingOptions.t :=
  TransitivePairingOptions.mk 1000 2.

Definition path_graph : list ImagePair := [(1, 2); (2, 3); (3, 4)]%N.

(** The dedup invariant, for the pairs [emitted] so far: together with the
    pending pairs they carry pairwise different canonical ids, all of them
    held in [image_pair_ids_]. *)
Definition dedup_inv (emitted : list ImagePair) (g : t) : Prop :=
  NoDup (map PairId (emitted ++ image_pairs_ g)) /\
  forall p, In p (emitted ++ image_pairs_ g) -> PairId p ∈ image_pair_ids_ g.

End TransitivePairGenerator.

(** The first [n] calls of [Next], whatever [HasFinished] says: the batches
    in order, and the generator after them. *)
Fixpoint run {G} `{PairGenerator G} (n : nat) (g : G) : list (list ImagePair) * G :=
  match n with
  | O => ([], g)
  | S n' =>
      let '(batch, g') := Next g in
      let '(batches, g'') := run n' g' in
      (batch :: batches, g'')
  end.

(** ** A concrete kernel, for running the triangulation code on examples

    Scalars are rationals.  The decompositions return a fixed status and a
    fixed matrix handed in by the example, so that each path through the
    control flow can be taken on purpose; the theorems of Part II hold for
    every kernel. *)

Definition rational_scalar : Scalar := {|
  double := Q;
  d_zero := 0%Q; d_one := 1%Q; d_half := (1 # 2)%Q; d_epsilon := (1 # 4503599627370496)%Q;
  d_add := Qplus; d_sub := Qminus; d_mul := Qmult; d_div := Qdiv;
  d_neg := Qopp; d_sqrt := fun x => x;
  d_eqb := Qeq_bool; d_leb := Qle_bool |}.

Definition fixed_kernel (info : ComputationInfo) (m : @Matrix rational_scalar)
    : @EigenKernel rational_scalar := {|
  JacobiSVD4 := fun _ => (info, m);
  JacobiSVD3 := fun _ => (info, m);
  SelfAdjointEigenSolver4 := fun _ => (info, m);
  Quaterniond := unit;
  quat_of_rotation_matrix := fun _ => tt;
  quat_inverse := fun q => q;
  quat_rotate := fun _ v => v;
  rigid3_compose := fun a _ => a;
  rigid3_inverse := fun a => a;
  EssentialMatrixFromPose := fun _ => [];
  FindOptimalImageObservations := fun _ p1 p2 => (p1, p2);
  eigen_version_at_least_3_4_0 := true |}.

(** What the sentence "returns true after writing exactly one 3-D point to
    its output parameter, or returns false without writing at all" says of
    the result [r] of a call whose output pointer is [xyz]. *)
Definition point_or_failure {scalar : Scalar} (xyz : pointer) (r : exec bool) : Prop :=
  (exists a p, xyz = ptr a /\ r = ([(a, p)], Return true)) \/ r = ([], Return false).

Definition rational_point (x y : Q) : @Vector2d rational_scalar :=
  @V2 rational_scalar x y.

(** ** Triangulation angles (triangulation.cc, lines 159-209)

    The three functions need a few more operations of [double] than the
    triangulation functions above: [operator<], [std::acos], and the
    constants [2.0] and [M_PI]. *)

Class ScalarMath {scalar : Scalar} := {
  d_two : double;                     (* 2.0 *)
  d_pi : double;                      (* M_PI *)
  d_acos : double -> double;          (* std::acos *)
  d_ltb : double -> double -> bool    (* operator< *)
}.

Section TriangulationAngles.
Context {scalar : Scalar} {math : ScalarMath}.

(* std::clamp(v, lo, hi): (v < lo) ? lo : (hi < v) ? hi : v *)
Definition std_clamp (v lo hi : double) : double :=
  if d_ltb v lo then lo else if d_ltb hi v then hi else v.

(* std::min(a, b): (b < a) ? b : a *)
Definition std_min (a b : double) : double := if d_ltb b a then b else a.

Definition v3_sub (a b : Vector3d) : Vector3d :=
  V3 (d_sub (v3_0 a) (v3_0 b)) (d_sub (v3_1 a) (v3_1 b)) (d_sub (v3_2 a) (v3_2 b)).

(* v.squaredNorm() *)
Definition squaredNorm (v : Vector3d) : double :=
  d_add (d_add (d_mul (v3_0 v) (v3_0 v)) (d_mul (v3_1 v) (v3_1 v)))
        (d_mul (v3_2 v) (v3_2 v)).

(** [CalculateTriangulationAngleWithKnownBaseline] (lines 161-184). *)
Definition CalculateTriangulationAngleWithKnownBaseline
    (baseline_length_squared : double)
    (proj_center1 proj_center2 point3D : Vector3d) : double :=
  let ray_length_squared1 := squaredNorm (v3_sub point3D proj_center1) in
  let ray_length_squared2 := squaredNorm (v3_sub point3D proj_center2) in
  (* Using "law of cosines" to compute the enclosing angle between rays. *)
  let denominator :=
    d_mul d_two (d_sqrt (d_mul ray_length_squared1 ray_length_squared2)) in
  if d_eqb denominator d_zero then d_zero
  else
    let nominator :=
      d_sub (d_add ray_length_squared1 ray_length_squared2) baseline_length_squared in
    let angle :=
      d_acos (std_clamp (d_div nominator denominator) (d_neg d_one) d_one) in
    std_min angle (d_sub d_pi angle).

(** The two intermediate values of
    [CalculateTriangulationAngleWithKnownBaseline] the statements name: its
    [denominator] (lines 170-171) and the argument it passes to [std::acos]
    (line 178). *)
Definition angle_denominator (proj_center1 proj_center2 point3D : Vector3d) : double :=
  d_mul d_two
    (d_sqrt (d_mul (squaredNorm (v3_sub point3D proj_center1))
                   (squaredNorm (v3_sub point3D proj_center2)))).

Definition angle_cosine (baseline_length_squared : double)
    (proj_center1 proj_center2 point3D : Vector3d) : double :=
  std_clamp
    (d_div (d_sub (d_add (squaredNorm (v3_sub point3D proj_center1))
                         (squaredNorm (v3_sub point3D proj_center2)))
                  baseline_length_squared)
           (angle_denominator proj_center1 proj_center2 point3D))
    (d_neg d_one) d_one.

(** [CalculateTriangulationAngle] (lines 188-195). *)
Definition CalculateTriangulationAngle
    (proj_center1 proj_center2 point3D : Vector3d) : double :=
  let baseline_length_squared := squaredNorm (v3_sub proj_center1 proj_center2) in
  CalculateTriangulationAngleWithKnownBaseline
    baseline_length_squared proj_center1 proj_center2 point3D.

(* v[i] = x on a std::vector: past the end is undefined behaviour *)
Definition vector_set {A} (v : list A) (i : nat) (x : A) : exec (list A) :=
  if (i <? length v)%nat then ret (<[i:=x]> v) else ([], Undefined).

(** [for (size_t i = 0; i < points3D.size(); ++i)] of
    [CalculateTriangulationAngles]: [n] counts the iterations left, [i] is
    the loop variable. *)
Fixpoint angles_loop (baseline_length_squared : double)
    (proj_center1 proj_center2 : Vector3d) (points3D : list Vector3d)
    (n i : nat) (angles : list double) : exec (list double) :=
  match n with
  | O => ret angles
  | S n' =>
      do point3D <- span_at points3D i ;
      do angles' <- vector_set angles i
                      (CalculateTriangulationAngleWithKnownBaseline
                         baseline_length_squared proj_center1 proj_center2 point3D) ;
      angles_loop baseline_length_squared proj_center1 proj_center2 points3D
        n' (S i) angles'
  end.

(** [CalculateTriangulationAngles] (lines 197-209).
    [std::vector<double> angles(points3D.size())] holds zeros. *)
Definition CalculateTriangulationAngles
    (proj_center1 proj_center2 : Vector3d) (points3D : list Vector3d)
    : exec (list double) :=
  let baseline_length_squared := squaredNorm (v3_sub proj_center1 proj_center2) in
  angles_loop baseline_length_squared proj_center1 proj_center2 points3D
    (length points3D) 0 (repeat d_zero (length points3D)).

End TriangulationAngles.

Section TriangulationParts.
Context {scalar : Scalar} {kernel : EigenKernel}.

(** The matrix [A] of [TriangulatePoint] (lines 47-51). *)
Definition point_system (cam1_from_world cam2_from_world : Matrix)
    (cam_point1 cam_point2 : Vector2d) : Matrix :=
  [ row_sub (row_scale (v2_0 cam_point1) (row cam1_from_world 2)) (row cam1_from_world 0);
    row_sub (row_scale (v2_1 cam_point1) (row cam1_from_world 2)) (row cam1_from_world 1);
    row_sub (row_scale (v2_0 cam_point2) (row cam2_from_world 2)) (row cam2_from_world 0);
    row_sub (row_scale (v2_1 cam_point2) (row cam2_from_world 2)) (row cam2_from_world 1) ].

(** The matrix [A] of [TriangulateMidPoint] (lines 72-81). *)
Definition mid_point_system (cam2_from_cam1 : Quaterniond * Vector3d)
    (cam_ray1 cam_ray2 : Vector3d) : Matrix :=
  let cam1_from_cam2_rotation := quat_inverse (fst cam2_from_cam1) in
  let cam_ray2_in_cam1 := quat_rotate cam1_from_cam2_rotation cam_ray2 in
  let cam2_in_cam1 :=
    quat_rotate cam1_from_cam2_rotation (v3_neg (snd cam2_from_cam1)) in
  [ [v3_0 cam_ray1; d_neg (v3_0 cam_ray2_in_cam1); d_neg (v3_0 cam2_in_cam1)];
    [v3_1 cam_ray1; d_neg (v3_1 cam_ray2_in_cam1); d_neg (v3_1 cam2_in_cam1)];
    [v3_2 cam_ray1; d_neg (v3_2 cam_ray2_in_cam1); d_neg (v3_2 cam2_in_cam1)] ].

(** The value [TriangulateMidPoint] stores (lines 102-103), for the
    [lambda] of line 94. *)
Definition mid_point (cam2_from_cam1 : Quaterniond * Vector3d)
    (cam_ray1 cam_ray2 : Vector3d) (lambda : Vector2d) : Vector3d :=
  let cam1_from_cam2_rotation := quat_inverse (fst cam2_from_cam1) in
  let cam_ray2_in_cam1 := quat_rotate cam1_from_cam2_rotation cam_ray2 in
  let cam2_in_cam1 :=
    quat_rotate cam1_from_cam2_rotation (v3_neg (snd cam2_from_cam1)) in
  v3_scale d_half
    (v3_add (v3_add (v3_scale (v2_0 lambda) cam_ray1) cam2_in_cam1)
            (v3_scale (v2_1 lambda) cam_ray2_in_cam1)).

(** The matrix the accumulation loop of [TriangulateMultiViewPoint] builds
    when both spans have the same size: the terms of the views, added to
    the zero matrix in the order of the views, camera [i] with point [i]. *)
Definition multi_view_matrix (cams_from_world : list Matrix)
    (cam_points : list Vector2d) : Matrix :=
  fold_left (fun A view => mat_add A (multi_view_term (fst view) (snd view)))
            (combine cams_from_world cam_points) Matrix4d_Zero.

(** Lines 123-130 of [TriangulateMultiViewPoint]: the eigen decomposition
    of [A] and what follows it. *)
Definition multi_view_solve (A : Matrix) (xyz : pointer) : exec bool :=
  let '(info, eigenvectors) := SelfAdjointEigenSolver4 A in
  if negb (is_Success info) || d_eqb (coeff eigenvectors 3 0) d_zero then ret false
  else
    do u <- store xyz (hnormalized4 (col eigenvectors 0)) ;
    ret true.

End TriangulationParts.

(** A concrete [ScalarMath] over the rationals, for examples: [acos] is not
    a rational function and is kept as the identity. *)
Definition rational_math : @ScalarMath rational_scalar :=
  @Build_ScalarMath rational_scalar 2%Q (355 # 113)%Q (fun x : Q => x)
    (fun x y : Q => negb (Qle_bool y x)).

Definition rational_vector (x y z : Q) : @Vector3d rational_scalar :=
  @V3 rational_scalar x y z.

(** The value of the [int] expression each [CacheSize] returns, as a
    mathematical integer (before any wrap-around or conversion). *)
Definition CacheSizeExact (o : PairingOptions) : Z :=
  match o with
  | OfExhaustive o => ExhaustivePairingOptions.block_size o
  | OfVocabTree o => 5 * VocabTreePairingOptions.num_images o
  | OfSequential o =>
      Z.max (5 * SequentialPairingOptions.loop_detection_num_images o)
            (5 * SequentialPairingOptions.overlap o)
  | OfSpatial o => 5 * SpatialPairingOptions.max_num_neighbors o
  | OfTransitive o => 2 * TransitivePairingOptions.batch_size o
  | OfImported o => ImportedPairingOptions.block_size o
  end.

(** ** The track-length filter of [RunPointFiltering] (sfm.cc, lines 506-512)

    Of the [Reconstruction] the loop reads and writes its 3-D points only:
    they are kept by id, each with the length of its track.
    [Point3DIds()] hands the loop the ids to visit, [Point3D(id)] looks one
    up and throws when there is none, [DeletePoint3D(id)] removes it. *)
Module PointFiltering.

(* size_t += size_t *)
Definition size_t_add (a b : Z) : Z := (a + b) mod 2 ^ 64.

(** One iteration: the state is [num_filtered] and the points, [None] once
    [Point3D] has thrown. *)
Definition filter_point (min_track_len : Z) (st : option (Z * gmap N Z))
    (point3D_id : N) : option (Z * gmap N Z) :=
  match st with
  | None => None
  | Some (num_filtered, points) =>
      match points !! point3D_id with
      | None => None
      | Some track_length =>
          if track_length <? min_track_len
          then Some (size_t_add num_filtered track_length, delete point3D_id points)
          else Some (num_filtered, points)
      end
  end.

(** The loop over the ids [Point3DIds()] returned. *)
Definition filter_short_tracks (min_track_len : Z) (point3D_ids : list N)
    (num_filtered : Z) (points : gmap N Z) : option (Z * gmap N Z) :=
  fold_left (filter_point min_track_len) point3D_ids (Some (num_filtered, points)).

(** What the loop adds to [num_filtered] for the point [id]. *)
Definition filtered_length (min_track_len : Z) (points : gmap N Z) (id : N) : Z :=
  match points !! id with
  | Some track_length => if track_length <? min_track_len then track_length else 0
  | None => 0
  end.

Definition sum_Z (l : list Z) : Z := fold_right Z.add 0 l.

End PointFiltering.

(** ** [UpdateDatabasePosePriorsCovariance] (sfm.cc, lines 63-79)

    Of the [Database] the function reads the images and reads and writes
    the pose priors, kept here by image id.  A [PosePrior] is its
    [position_covariance] and its other fields. *)
Module PosePriors.

Section WithTypes.
Context {Matrix3d Other : Type}.

Record PosePrior := mkPosePrior {
  position_covariance : Matrix3d;
  other_fields : Other
}.

(** The body of the loop, for one image: [ExistsPosePrior], [ReadPosePrior],
    the assignment of the covariance, [UpdatePosePrior]. *)
Definition update_prior (covariance : Matrix3d) (priors : gmap N PosePrior)
    (image_id : N) : gmap N PosePrior :=
  match priors !! image_id with
  | Some prior =>
      <[image_id := mkPosePrior covariance (other_fields prior)]> priors
  | None => priors
  end.

(** The loop over the images [ReadAllImages()] returned. *)
Definition UpdateDatabasePosePriorsCovariance (images : list N)
    (covariance : Matrix3d) (priors : gmap N PosePrior) : gmap N PosePrior :=
  fold_left (update_prior covariance) images priors.

End WithTypes.
Arguments PosePrior : clear implicits.

End PosePriors.

(* ===================================================================== *)
(** * Part II: lemmas and theorems                                        *)
(* ===================================================================== *)

Local Open Scope nat_scope.

(** ** Arithmetic of the block tiling *)

Lemma ceil_div_lt (n bs b : nat) :
  0 < bs -> (b * bs < n <-> b < (n + bs - 1) / bs).
Proof.
  intros Hbs. split; intros H.
  - apply Nat.div_le_lower_bound; [lia | nia].
  - assert (Hle : bs * ((n + bs - 1) / bs) <= n + bs - 1)
      by (apply Nat.Div0.mul_div_le).
    nia.
Qed.

Lemma block_div (bs b i : nat) :
  0 < bs -> b * bs <= i < b * bs + bs -> i / bs = b.
Proof.
  intros Hbs Hi. symmetry. apply (Nat.div_unique i bs b (i - b * bs)); lia.
Qed.

Lemma div_block_range (bs i : nat) :
  0 < bs -> i / bs * bs <= i < i / bs * bs + bs.
Proof.
  intros Hbs. pose proof (Nat.div_mod_eq i bs) as E.
  pose proof (Nat.mod_upper_bound i bs ltac:(lia)) as U. nia.
Qed.

Lemma scan_counter_split (nb b1 b2 : nat) :
  b2 < nb -> (b1 * nb + b2) / nb = b1 /\ (b1 * nb + b2) mod nb = b2.
Proof.
  intros H. split.
  - symmetry. apply (Nat.div_unique _ nb b1 b2); lia.
  - symmetry. apply (Nat.mod_unique _ nb b1 b2); lia.
Qed.

Lemma scan_counter_bounds (nb k : nat) :
  0 < nb -> k < nb * nb -> k / nb < nb /\ k mod nb < nb.
Proof.
  intros Hnb Hk. split.
  - apply Nat.Div0.div_lt_upper_bound. lia.
  - apply Nat.mod_upper_bound. lia.
Qed.

Lemma scan_counter_succ (nb k : nat) :
  0 < nb ->
  (k mod nb + 1 < nb -> (k + 1) / nb = k / nb /\ (k + 1) mod nb = k mod nb + 1) /\
  (nb <= k mod nb + 1 -> (k + 1) / nb = k / nb + 1 /\ (k + 1) mod nb = 0).
Proof.
  intros Hnb. pose proof (Nat.div_mod_eq k nb) as E.
  pose proof (Nat.mod_upper_bound k nb ltac:(lia)) as U.
  split; intros H.
  - split.
    + symmetry. apply (Nat.div_unique _ nb (k / nb) (k mod nb + 1)); lia.
    + symmetry. apply (Nat.mod_unique _ nb (k / nb) (k mod nb + 1)); lia.
  - split.
    + symmetry. apply (Nat.div_unique _ nb (k / nb + 1) 0); lia.
    + symmetry. apply (Nat.mod_unique _ nb (k / nb + 1) 0); lia.
Qed.

(** ** Sorted lists built by concatenation *)

Section SortedConcat.
Context {A B : Type} (R : B -> B -> Prop).

Lemma StronglySorted_app_between (l1 l2 : list B) :
  StronglySorted R l1 -> StronglySorted R l2 ->
  (forall x y, In x l1 -> In y l2 -> R x y) ->
  StronglySorted R (l1 ++ l2).
Proof.
  induction l1 as [|a l1 IH]; intros H1 H2 Hx; simpl; [exact H2|].
  apply StronglySorted_inv in H1 as [H1 Ha].
  constructor.
  - apply IH; [exact H1 | exact H2 |].
    intros x y Hin Hy. apply Hx; [right; exact Hin | exact Hy].
  - apply Forall_app. split; [exact Ha|].
    apply List.Forall_forall. intros y Hy. apply Hx; [left; reflexivity | exact Hy].
Qed.

Lemma StronglySorted_flat_map (RA : A -> A -> Prop) (f : A -> list B) (l : list A) :
  StronglySorted RA l ->
  (forall a, In a l -> StronglySorted R (f a)) ->
  (forall a a' x y, RA a a' -> In x (f a) -> In y (f a') -> R x y) ->
  StronglySorted R (flat_map f l).
Proof.
  intros Hl Hin Hout. induction Hl as [|a l Hl IH Ha]; simpl; [constructor|].
  apply StronglySorted_app_between.
  - apply Hin. simpl; auto.
  - apply IH. intros a' Ha'. apply Hin. simpl; auto.
  - intros x y Hx Hy. apply in_flat_map in Hy as (a' & Ha' & Hy).
    rewrite List.Forall_forall in Ha. eapply Hout; eauto.
Qed.

Lemma StronglySorted_weaken (R' : B -> B -> Prop) (l : list B) :
  (forall x y, In x l -> In y l -> R x y -> R' x y) ->
  StronglySorted R l -> StronglySorted R' l.
Proof.
  intros Himp Hl. induction Hl as [|a l Hl IH Ha]; [constructor|].
  constructor.
  - apply IH. intros x y Hx Hy. apply Himp; simpl; auto.
  - rewrite List.Forall_forall in *. intros y Hy. apply Himp; simpl; auto.
Qed.

Lemma StronglySorted_irrefl_NoDup (l : list B) :
  (forall x, ~ R x x) -> StronglySorted R l -> NoDup l.
Proof.
  intros Hirr Hl. induction Hl as [|a l Hl IH Ha]; constructor; auto.
  rewrite list_elem_of_In. intros Hin. rewrite List.Forall_forall in Ha.
  exact (Hirr a (Ha a Hin)).
Qed.

End SortedConcat.

Lemma StronglySorted_seq (s n : nat) : StronglySorted lt (seq s n).
Proof.
  revert s. induction n as [|n IH]; intros s; simpl; constructor; auto.
  apply List.Forall_forall. intros y Hy. apply in_seq in Hy. lia.
Qed.

(** ** ExhaustivePairGenerator: what one block holds *)

Module EPG := ExhaustivePairGenerator.

Lemma in_block_index_pairs (n bs s1 s2 i j : nat) :
  In (i, j) (EPG.block_index_pairs n bs s1 s2) <->
  s1 <= i < Nat.min n (s1 + bs) /\ s2 <= j < Nat.min n (s2 + bs) /\ i < j.
Proof.
  unfold EPG.block_index_pairs. rewrite in_flat_map. split.
  - intros (i' & Hi' & Hin). apply in_flat_map in Hin as (j' & Hj' & Hin).
    apply in_seq in Hi', Hj'.
    destruct (Nat.ltb_spec i' j'); simpl in Hin; [|contradiction].
    destruct Hin as [Heq|[]]. inversion Heq; subst. lia.
  - intros (Hi & Hj & Hlt). exists i. split; [apply in_seq; lia|].
    apply in_flat_map. exists j. split; [apply in_seq; lia|].
    destruct (Nat.ltb_spec i j); simpl; [auto | lia].
Qed.

Lemma block_index_pairs_sorted (n bs s1 s2 : nat) :
  StronglySorted EPG.lex_lt (EPG.block_index_pairs n bs s1 s2).
Proof.
  unfold EPG.block_index_pairs.
  apply StronglySorted_flat_map with (RA := lt).
  - apply StronglySorted_seq.
  - intros i _. apply StronglySorted_flat_map with (RA := lt).
    + apply StronglySorted_seq.
    + intros j _. destruct (i <? j); repeat constructor.
    + intros j j' x y Hlt Hx Hy.
      destruct (i <? j); [|contradiction]. destruct (i <? j'); [|contradiction].
      destruct Hx as [<-|[]]. destruct Hy as [<-|[]]. right. simpl. lia.
  - intros i i' x y Hlt Hx Hy.
    apply in_flat_map in Hx as (j & _ & Hx). apply in_flat_map in Hy as (j' & _ & Hy).
    destruct (i <? j); [|contradiction]. destruct (i' <? j'); [|contradiction].
    destruct Hx as [<-|[]]. destruct Hy as [<-|[]]. left. simpl. lia.
Qed.

(** ** ExhaustivePairGenerator: the scan, step by step *)

Lemma drain_finished {G} `{PairGenerator G} (fuel : nat) (g : G) :
  HasFinished g = true -> drain fuel g = Some ([], g).
Proof. intros Hf. destruct fuel; simpl; rewrite Hf; reflexivity. Qed.

Lemma drain_step {G} `{PairGenerator G} (fuel : nat) (g : G) :
  HasFinished g = false ->
  drain (S fuel) g =
    match drain fuel (snd (Next g)) with
    | Some (batches, g'') => Some (fst (Next g) :: batches, g'')
    | None => None
    end.
Proof. intros Hf. simpl. rewrite Hf. destruct (Next g); reflexivity. Qed.

Lemma exhaustive_Next_at_scan (ids : list image_t) (bs k : nat) (g : EPG.t) :
  let n := length ids in
  let nb := (n + bs - 1) / bs in
  0 < bs -> EPG.at_scan ids bs k g -> k < nb * nb ->
  EPG.HasFinished g = false /\
  fst (EPG.Next g) = map (EPG.ids_of ids) (EPG.scan_block n bs k) /\
  EPG.at_scan ids bs (k + 1) (snd (EPG.Next g)).
Proof.
  intros n nb Hbs (Hids & Hb & H1 & H2) Hk.
  assert (Hnb : 0 < nb) by lia.
  destruct (scan_counter_bounds nb k Hnb Hk) as [Hd Hm].
  pose proof (proj2 (ceil_div_lt n bs (k / nb) Hbs) Hd) as Hrow.
  assert (Hfin : EPG.HasFinished g = false).
  { unfold EPG.HasFinished. rewrite Hids, H1. apply Nat.leb_gt. exact Hrow. }
  split; [exact Hfin|].
  unfold EPG.Next. rewrite Hfin. rewrite Hids, Hb, H1, H2. fold n. fold nb.
  destruct (scan_counter_succ nb k Hnb) as [Hstay Hwrap].
  destruct (Nat.leb_spec n (k mod nb * bs + bs)) as [Hle|Hlt]; simpl.
  - split; [reflexivity|].
    assert (Hw : nb <= k mod nb + 1).
    { destruct (Nat.lt_ge_cases (k mod nb + 1) nb) as [Hc|Hc]; [|exact Hc].
      apply (ceil_div_lt n bs) in Hc; [lia | exact Hbs]. }
    destruct (Hwrap Hw) as [E1 E2].
    unfold EPG.at_scan; simpl. fold n. fold nb. rewrite E1, E2. repeat split; lia.
  - split; [reflexivity|].
    assert (Hs : k mod nb + 1 < nb).
    { apply (ceil_div_lt n bs); [exact Hbs | lia]. }
    destruct (Hstay Hs) as [E1 E2].
    unfold EPG.at_scan; simpl. fold n. fold nb. rewrite E1, E2. repeat split; lia.
Qed.

Lemma exhaustive_finished_at_end (ids : list image_t) (bs : nat) (g : EPG.t) :
  let nb := (length ids + bs - 1) / bs in
  0 < bs -> EPG.at_scan ids bs (nb * nb) g -> EPG.HasFinished g = true.
Proof.
  intros nb Hbs (Hids & Hb & H1 & H2).
  unfold EPG.HasFinished. rewrite Hids, H1. apply Nat.leb_le. fold nb.
  destruct (Nat.eq_dec nb 0) as [Hz|Hnz].
  - assert (Hn : ~ 0 * bs < length ids).
    { intros Hc. apply (ceil_div_lt _ bs 0 Hbs) in Hc. fold nb in Hc. lia. }
    lia.
  - rewrite Nat.div_mul by exact Hnz.
    destruct (Nat.le_gt_cases (length ids) (nb * bs)) as [Hc|Hc]; [exact Hc|].
    apply (ceil_div_lt _ bs nb Hbs) in Hc. fold nb in Hc. lia.
Qed.

Lemma exhaustive_drain_from_scan (ids : list image_t) (bs : nat) :
  let n := length ids in
  let nb := (n + bs - 1) / bs in
  0 < bs ->
  forall (m k fuel : nat) (g : EPG.t),
    EPG.at_scan ids bs k g -> k + m = nb * nb -> m <= fuel ->
    exists g',
      drain fuel g =
        Some (map (fun j => map (EPG.ids_of ids) (EPG.scan_block n bs j)) (seq k m), g')
      /\ HasFinished g' = true.
Proof.
  intros n nb Hbs m. induction m as [|m IH]; intros k fuel g Hat Hkm Hfuel.
  - assert (k = nb * nb) by lia. subst k.
    pose proof (exhaustive_finished_at_end ids bs g Hbs Hat) as Hf.
    exists g. split; [|exact Hf]. apply drain_finished. exact Hf.
  - destruct fuel as [|fuel]; [lia|].
    destruct (exhaustive_Next_at_scan ids bs k g Hbs Hat ltac:(fold n; fold nb; lia))
      as (Hf & Hbatch & Hat').
    destruct (IH (k + 1) fuel (snd (EPG.Next g)) Hat' ltac:(lia) ltac:(lia))
      as (g' & Hd & Hfin).
    exists g'. split; [|exact Hfin].
    rewrite drain_step by exact Hf.
    change (@Next EPG.t EPG.generator g) with (EPG.Next g).
    rewrite Hd, Hbatch. simpl. replace (k + 1) with (S k) by lia. reflexivity.
Qed.

(** ** ExhaustivePairGenerator: the pairs of a whole pass *)

Lemma scan_block_block_of (n bs k : nat) (p : nat * nat) :
  let nb := (n + bs - 1) / bs in
  0 < bs -> k < nb * nb -> In p (EPG.scan_block n bs k) -> EPG.block_of bs nb p = k.
Proof.
  intros nb Hbs Hk Hin. destruct p as [i j].
  apply in_block_index_pairs in Hin as (Hi & Hj & _).
  fold nb in Hi, Hj. unfold EPG.block_of; simpl.
  rewrite (block_div bs (k / nb) i Hbs) by lia.
  rewrite (block_div bs (k mod nb) j Hbs) by lia.
  pose proof (Nat.div_mod_eq k nb). lia.
Qed.

Lemma in_scan (n bs i j : nat) :
  let nb := (n + bs - 1) / bs in
  0 < bs ->
  (In (i, j) (flat_map (EPG.scan_block n bs) (seq 0 (nb * nb))) <-> i < j < n).
Proof.
  intros nb Hbs. rewrite in_flat_map. split.
  - intros (k & _ & Hin). apply in_block_index_pairs in Hin. lia.
  - intros [Hij Hjn].
    pose proof (div_block_range bs i Hbs) as Hi.
    pose proof (div_block_range bs j Hbs) as Hj.
    assert (Hbi : i / bs < nb) by (apply (ceil_div_lt n bs); [exact Hbs | lia]).
    assert (Hbj : j / bs < nb) by (apply (ceil_div_lt n bs); [exact Hbs | lia]).
    exists (i / bs * nb + j / bs). split; [apply in_seq; nia|].
    unfold EPG.scan_block. fold nb.
    destruct (scan_counter_split nb (i / bs) (j / bs) Hbj) as [E1 E2].
    rewrite E1, E2. apply in_block_index_pairs. lia.
Qed.

Lemma scan_sorted (n bs : nat) :
  let nb := (n + bs - 1) / bs in
  0 < bs ->
  StronglySorted (EPG.scan_lt bs nb) (flat_map (EPG.scan_block n bs) (seq 0 (nb * nb))).
Proof.
  intros nb Hbs.
  assert (Hblock : forall k p, In k (seq 0 (nb * nb)) -> In p (EPG.scan_block n bs k) ->
                               EPG.block_of bs nb p = k).
  { intros k p Hk Hp. apply in_seq in Hk.
    apply (scan_block_block_of n bs k p Hbs); [fold nb; lia | exact Hp]. }
  assert (Hgen : forall l, (forall k, In k l -> In k (seq 0 (nb * nb))) ->
                 StronglySorted lt l ->
                 StronglySorted (EPG.scan_lt bs nb) (flat_map (EPG.scan_block n bs) l)).
  { intros l Hsub Hl. induction Hl as [|k l Hl IH Hk]; simpl; [constructor|].
    apply StronglySorted_app_between.
    - apply StronglySorted_weaken with (R := EPG.lex_lt).
      + intros x y Hx Hy Hlex. right. split; [|exact Hlex].
        rewrite (Hblock k x), (Hblock k y); auto using in_eq.
      + apply block_index_pairs_sorted.
    - apply IH. intros k' Hk'. apply Hsub. right. exact Hk'.
    - intros x y Hx Hy. apply in_flat_map in Hy as (k' & Hk' & Hy).
      rewrite List.Forall_forall in Hk. left.
      rewrite (Hblock k x), (Hblock k' y); auto using in_eq, in_cons. }
  apply Hgen; [auto | apply StronglySorted_seq].
Qed.

Lemma scan_lt_irrefl (bs nb : nat) (p : nat * nat) : ~ EPG.scan_lt bs nb p p.
Proof. unfold EPG.scan_lt. lia. Qed.

(** The reference enumeration of the strict upper triangle. *)

Lemma in_upper_pairs (n i j : nat) : In (i, j) (EPG.upper_pairs n) <-> i < j < n.
Proof.
  unfold EPG.upper_pairs. rewrite in_flat_map. split.
  - intros (j' & Hj' & Hin). apply in_map_iff in Hin as (i' & Heq & Hi').
    inversion Heq; subst. apply in_seq in Hj', Hi'. lia.
  - intros [Hij Hjn]. exists j. split; [apply in_seq; lia|].
    apply in_map_iff. exists i. split; [reflexivity | apply in_seq; lia].
Qed.

Lemma upper_pairs_NoDup (n : nat) : NoDup (EPG.upper_pairs n).
Proof.
  apply StronglySorted_irrefl_NoDup
    with (R := fun p q => snd p < snd q \/ (snd p = snd q /\ fst p < fst q)).
  - intros x. lia.
  - unfold EPG.upper_pairs. apply StronglySorted_flat_map with (RA := lt).
    + apply StronglySorted_seq.
    + intros j _. induction (StronglySorted_seq 0 j) as [|i l Hl IH Hi]; simpl;
        constructor; auto.
      rewrite List.Forall_forall in *. intros y Hy.
      apply in_map_iff in Hy as (i' & <- & Hi'). right. simpl. split; [reflexivity|].
      apply Hi. exact Hi'.
    + intros j j' x y Hlt Hx Hy.
      apply in_map_iff in Hx as (i & <- & _). apply in_map_iff in Hy as (i' & <- & _).
      left. exact Hlt.
Qed.

Lemma upper_pairs_length (n : nat) : 2 * length (EPG.upper_pairs n) = n * (n - 1).
Proof.
  unfold EPG.upper_pairs. induction n as [|n IH]; [reflexivity|].
  rewrite seq_S, flat_map_app, length_app. simpl.
  rewrite length_app, length_map, length_seq. simpl. nia.
Qed.

Lemma scan_length (n bs : nat) :
  let nb := (n + bs - 1) / bs in
  0 < bs ->
  length (flat_map (EPG.scan_block n bs) (seq 0 (nb * nb))) = n * (n - 1) / 2.
Proof.
  intros nb Hbs.
  assert (Hperm : Permutation (flat_map (EPG.scan_block n bs) (seq 0 (nb * nb)))
                              (EPG.upper_pairs n)).
  { apply NoDup_Permutation.
    - apply StronglySorted_irrefl_NoDup with (R := EPG.scan_lt bs nb).
      + apply scan_lt_irrefl.
      + apply scan_sorted. exact Hbs.
    - apply upper_pairs_NoDup.
    - intros [i j]. rewrite !list_elem_of_In.
      rewrite in_upper_pairs. apply in_scan. exact Hbs. }
  rewrite (Permutation_length Hperm).
  pose proof (upper_pairs_length n) as H2.
  apply Nat.div_unique_exact; lia.
Qed.

Lemma concat_map_map {A B C} (f : B -> C) (g : A -> list B) (l : list A) :
  concat (map (fun a => map f (g a)) l) = map f (flat_map g l).
Proof.
  induction l as [|a l IH]; simpl; [reflexivity|]. rewrite IH, map_app. reflexivity.
Qed.

Lemma at_inj (ids : list image_t) (i j : nat) :
  NoDup ids -> i < length ids -> j < length ids ->
  at_ ids i = at_ ids j -> i = j.
Proof.
  intros Hnd Hi Hj Heq. unfold at_ in Heq.
  destruct (lookup_lt_is_Some_2 ids i Hi) as [x Hx].
  destruct (lookup_lt_is_Some_2 ids j Hj) as [y Hy].
  rewrite (nth_lookup_Some _ _ _ _ Hx), (nth_lookup_Some _ _ _ _ Hy) in Heq. subst y.
  exact (proj1 (NoDup_alt ids) Hnd i j x Hx Hy).
Qed.

Lemma PairId_eq (a b a' b' : image_t) :
  PairId (a, b) = PairId (a', b') -> (a = a' /\ b = b') \/ (a = b' /\ b = a').
Proof.
  unfold PairId, ImagePairToPairId; simpl. intros Heq. inversion Heq. lia.
Qed.

Lemma PairId_ids_of_inj (ids : list image_t) (n : nat) (p q : nat * nat) :
  NoDup ids -> n = length ids ->
  fst p < snd p < n -> fst q < snd q < n ->
  PairId (EPG.ids_of ids p) = PairId (EPG.ids_of ids q) -> p = q.
Proof.
  intros Hnd -> Hp Hq Heq. destruct p as [i j], q as [i' j']; simpl in *.
  unfold EPG.ids_of in Heq; simpl in Heq.
  apply PairId_eq in Heq as [[E1 E2]|[E1 E2]].
  - apply (at_inj ids) in E1; [|assumption|lia|lia].
    apply (at_inj ids) in E2; [|assumption|lia|lia]. congruence.
  - apply (at_inj ids) in E1; [|assumption|lia|lia].
    apply (at_inj ids) in E2; [|assumption|lia|lia]. lia.
Qed.

(** C1 (ExhaustivePairGenerator, completeness): over [n >= 2] distinct image
    ids and a positive block size, one pass ([Reset], then [Next] until
    [HasFinished]) ends within [num_blocks * num_blocks] calls of [Next] and
    emits the images at the index pairs [idxs], where [idxs] has exactly
    [n * (n - 1) / 2] entries, holds [(i, j)] exactly when [i < j < n]
    (every emitted pair has its endpoints ordered by index position), is
    strictly increasing in the scan order (blocks in row-major order,
    [(idx1, idx2)] lexicographic inside a block), and names every unordered
    pair of images at most once (the canonical pair ids do not repeat). *)
Theorem exhaustive_pass_complete (options : ExhaustivePairingOptions.t)
    (ids : list image_t) (fuel : nat) :
  NoDup ids -> 2 <= length ids ->
  (0 < ExhaustivePairingOptions.block_size options)%Z ->
  let g := EPG.new options ids in
  let n := length ids in
  EPG.num_blocks_ g * EPG.num_blocks_ g <= fuel ->
  exists (idxs : list (nat * nat)) (g' : EPG.t),
    AllPairs fuel g = Some (map (EPG.ids_of ids) idxs, g') /\
    HasFinished g' = true /\
    length idxs = n * (n - 1) / 2 /\
    (forall i j, In (i, j) idxs <-> i < j < n) /\
    StronglySorted (EPG.scan_lt (EPG.block_size_ g) (EPG.num_blocks_ g)) idxs /\
    NoDup (map PairId (map (EPG.ids_of ids) idxs)).
Proof.
  intros Hnd Hn Hbs g n Hfuel.
  set (bs := Z.to_nat (ExhaustivePairingOptions.block_size options)) in *.
  assert (Hbs' : 0 < bs) by (unfold bs; lia).
  set (nb := (n + bs - 1) / bs).
  change (EPG.num_blocks_ g) with nb in *. change (EPG.block_size_ g) with bs.
  assert (Hat : EPG.at_scan ids bs 0 (Reset g)).
  { unfold EPG.at_scan; simpl. fold bs. rewrite Nat.Div0.div_0_l, Nat.Div0.mod_0_l.
    repeat split; reflexivity. }
  destruct (exhaustive_drain_from_scan ids bs Hbs' (nb * nb) 0 fuel (Reset g) Hat
              eq_refl Hfuel) as (g' & Hd & Hfin).
  exists (flat_map (EPG.scan_block n bs) (seq 0 (nb * nb))), g'.
  split; [|split; [exact Hfin|]].
  { unfold AllPairs. rewrite Hd. fold n. rewrite concat_map_map. reflexivity. }
  split; [apply scan_length; exact Hbs'|].
  split; [intros i j; apply in_scan; exact Hbs'|].
  split; [apply scan_sorted; exact Hbs'|].
  rewrite <- list_fmap_compose.
  apply NoDup_fmap_2_strong.
  - intros p q Hp Hq Heq. rewrite list_elem_of_In in Hp, Hq.
    destruct p as [i j], q as [i' j'].
    apply in_scan in Hp, Hq; try exact Hbs'.
    apply (PairId_ids_of_inj ids n); auto.
  - apply StronglySorted_irrefl_NoDup with (R := EPG.scan_lt bs nb).
    + apply scan_lt_irrefl.
    + apply scan_sorted. exact Hbs'.
Qed.

(** Five images in blocks of two: nine calls of [Next] drain the pass. *)
Lemma exhaustive_pass_complete_witness :
  exists (idxs : list (nat * nat)) (g' : EPG.t),
    AllPairs 9 (EPG.new (ExhaustivePairingOptions.mk 2) [10; 20; 30; 40; 50]%N)
      = Some (map (EPG.ids_of [10; 20; 30; 40; 50]%N) idxs, g') /\
    HasFinished g' = true /\
    length idxs = 5 * (5 - 1) / 2 /\
    (forall i j, In (i, j) idxs <-> i < j < 5) /\
    StronglySorted (EPG.scan_lt 2 3) idxs /\
    NoDup (map PairId (map (EPG.ids_of [10; 20; 30; 40; 50]%N) idxs)).
Proof.
  apply (exhaustive_pass_complete (ExhaustivePairingOptions.mk 2)
           [10; 20; 30; 40; 50]%N 9).
  - apply (bool_decide_unpack (NoDup _)). vm_compute. reflexivity.
  - simpl. lia.
  - simpl. lia.
  - vm_compute. lia.
Defined.

(** ** Triangulation: effects of the four functions *)

Section TriangulationFacts.
Context {scalar : Scalar} {kernel : EigenKernel}.

Lemma TriangulatePoint_nonnull (c1 c2 : Matrix) (p1 p2 : Vector2d) (a : N) :
  point_or_failure (ptr a) (TriangulatePoint c1 c2 p1 p2 (ptr a)).
Proof.
  unfold point_or_failure, TriangulatePoint; simpl.
  destruct (JacobiSVD4 _) as [info V].
  destruct (eigen_version_at_least_3_4_0 && negb (is_Success info)); [right; reflexivity|].
  destruct (d_eqb (coeff V 3 3) d_zero); [right; reflexivity|].
  left. eexists _, _. split; reflexivity.
Qed.

Lemma TriangulatePoint_null (c1 c2 : Matrix) (p1 p2 : Vector2d) :
  TriangulatePoint c1 c2 p1 p2 nullptr = ([], Throw (CheckFailed "THROW_CHECK_NOTNULL")).
Proof. reflexivity. Qed.

Lemma TriangulateMidPoint_nonnull (pose : Quaterniond * Vector3d) (r1 r2 : Vector3d) (a : N) :
  point_or_failure (ptr a) (TriangulateMidPoint pose r1 r2 (ptr a)).
Proof.
  unfold point_or_failure, TriangulateMidPoint; simpl.
  destruct (JacobiSVD3 _) as [info V].
  destruct (eigen_version_at_least_3_4_0 && negb (is_Success info)); [right; reflexivity|].
  destruct (d_eqb (coeff V 2 2) d_zero); [right; reflexivity|].
  destruct (d_leb _ d_epsilon || d_leb _ d_epsilon); [right; reflexivity|].
  left. eexists _, _. split; reflexivity.
Qed.

Lemma TriangulateMidPoint_null (pose : Quaterniond * Vector3d) (r1 r2 : Vector3d) :
  TriangulateMidPoint pose r1 r2 nullptr = ([], Return false) \/
  TriangulateMidPoint pose r1 r2 nullptr = ([], Undefined).
Proof.
  unfold TriangulateMidPoint; simpl.
  destruct (JacobiSVD3 _) as [info V].
  destruct (eigen_version_at_least_3_4_0 && negb (is_Success info)); [left; reflexivity|].
  destruct (d_eqb (coeff V 2 2) d_zero); [left; reflexivity|].
  destruct (d_leb _ d_epsilon || d_leb _ d_epsilon); [left; reflexivity|].
  right. reflexivity.
Qed.

(** The accumulation loop reads [cam_points[i]] and [cams_from_world[i]] for
    [i] up to [i + n]: it stays in bounds exactly when both spans reach that
    far, and it stores nothing. *)
Lemma multi_view_loop_in_bounds (cams : list Matrix) (points : list Vector2d)
    (n i : nat) (A : Matrix) :
  i + n <= length points -> i + n <= length cams ->
  exists A', multi_view_loop cams points n i A = ([], Return A').
Proof.
  revert i A. induction n as [|n IH]; intros i A Hp Hc; simpl.
  - exists A. reflexivity.
  - unfold span_at.
    destruct (nth_error points i) as [p|] eqn:Ep;
      [|apply nth_error_None in Ep; lia].
    destruct (nth_error cams i) as [c|] eqn:Ec;
      [|apply nth_error_None in Ec; lia].
    simpl. destruct (IH (S i) (mat_add A (multi_view_term c p))) as [A' HA']; [lia|lia|].
    exists A'. rewrite HA'. reflexivity.
Qed.

Lemma multi_view_loop_out_of_bounds (cams : list Matrix) (points : list Vector2d)
    (n i : nat) (A : Matrix) :
  i + n <= length points -> i <= length cams < i + n ->
  multi_view_loop cams points n i A = ([], Undefined).
Proof.
  revert i A. induction n as [|n IH]; intros i A Hp Hc; simpl; [lia|].
  unfold span_at.
  destruct (nth_error points i) as [p|] eqn:Ep;
    [|apply nth_error_None in Ep; lia].
  destruct (nth_error cams i) as [c|] eqn:Ec; simpl.
  - assert (i < length cams) by (apply nth_error_Some; congruence).
    rewrite IH by lia. reflexivity.
  - reflexivity.
Qed.

Lemma TriangulateMultiViewPoint_nonnull (cams : list Matrix) (points : list Vector2d) (a : N) :
  length cams = length points ->
  point_or_failure (ptr a) (TriangulateMultiViewPoint cams points (ptr a)).
Proof.
  intros Hlen. unfold point_or_failure, TriangulateMultiViewPoint, THROW_CHECK_EQ.
  rewrite (proj2 (Nat.eqb_eq _ _) Hlen). simpl.
  destruct (multi_view_loop_in_bounds cams points (length points) 0 Matrix4d_Zero)
    as [A HA]; [lia|lia|].
  rewrite HA. simpl.
  destruct (SelfAdjointEigenSolver4 A) as [info V].
  destruct (negb (is_Success info) || d_eqb (coeff V 3 0) d_zero); [right; reflexivity|].
  left. eexists _, _. split; reflexivity.
Qed.

Lemma TriangulateMultiViewPoint_size_mismatch (cams : list Matrix)
    (points : list Vector2d) (xyz : pointer) :
  length cams <> length points ->
  TriangulateMultiViewPoint cams points xyz = ([], Throw (CheckFailed "THROW_CHECK_EQ")).
Proof.
  intros Hne. unfold TriangulateMultiViewPoint, THROW_CHECK_EQ.
  rewrite (proj2 (Nat.eqb_neq _ _) Hne). reflexivity.
Qed.

Lemma TriangulateMultiViewPoint_null (cams : list Matrix) (points : list Vector2d) :
  length cams = length points ->
  TriangulateMultiViewPoint cams points nullptr =
    ([], Throw (CheckFailed "THROW_CHECK_NOTNULL")).
Proof.
  intros Hlen. unfold TriangulateMultiViewPoint, THROW_CHECK_EQ.
  rewrite (proj2 (Nat.eqb_eq _ _) Hlen). reflexivity.
Qed.

Lemma TriangulateOptimalPoint_nonnull (c1 c2 : Matrix) (p1 p2 : Vector2d) (a : N) :
  point_or_failure (ptr a) (TriangulateOptimalPoint c1 c2 p1 p2 (ptr a)).
Proof.
  unfold TriangulateOptimalPoint.
  destruct (FindOptimalImageObservations _ p1 p2) as [q1 q2].
  apply TriangulatePoint_nonnull.
Qed.

Lemma TriangulateOptimalPoint_null (c1 c2 : Matrix) (p1 p2 : Vector2d) :
  TriangulateOptimalPoint c1 c2 p1 p2 nullptr =
    ([], Throw (CheckFailed "THROW_CHECK_NOTNULL")).
Proof.
  unfold TriangulateOptimalPoint.
  destruct (FindOptimalImageObservations _ p1 p2) as [q1 q2].
  apply TriangulatePoint_null.
Qed.

End TriangulationFacts.

(** C9 (as stated, refuted): with a null output pointer [TriangulatePoint]
    leaves through its [THROW_CHECK_NOTNULL]; it neither returns true after
    a store nor returns false. *)
Lemma triangulation_null_pointer_throws :
  @TriangulatePoint rational_scalar (fixed_kernel Success []) [] []
     (rational_point 0 0) (rational_point 0 0) nullptr
    = ([], Throw (CheckFailed "THROW_CHECK_NOTNULL")) /\
  ~ point_or_failure nullptr
      (@TriangulatePoint rational_scalar (fixed_kernel Success []) [] []
         (rational_point 0 0) (rational_point 0 0) nullptr).
Proof.
  split; [reflexivity|].
  intros [(a & p & Hnull & _)|H]; [discriminate Hnull | discriminate H].
Qed.

(** C9 (amended): called with a non-null output pointer (and, for
    [TriangulateMultiViewPoint], spans of equal size), each of the four
    functions either returns true after exactly one store of a 3-D point
    through that pointer, or returns false without any store.  A null output
    pointer makes [TriangulatePoint], [TriangulateMultiViewPoint] and
    [TriangulateOptimalPoint] throw, and spans of different sizes make
    [TriangulateMultiViewPoint] throw, each time before any store. *)
Theorem triangulation_point_or_failure {scalar : Scalar} {kernel : EigenKernel} (a : N) :
  (forall c1 c2 p1 p2,
     point_or_failure (ptr a) (TriangulatePoint c1 c2 p1 p2 (ptr a))) /\
  (forall pose r1 r2,
     point_or_failure (ptr a) (TriangulateMidPoint pose r1 r2 (ptr a))) /\
  (forall cams points, length cams = length points ->
     point_or_failure (ptr a) (TriangulateMultiViewPoint cams points (ptr a))) /\
  (forall c1 c2 p1 p2,
     point_or_failure (ptr a) (TriangulateOptimalPoint c1 c2 p1 p2 (ptr a))) /\
  (forall c1 c2 p1 p2,
     TriangulatePoint c1 c2 p1 p2 nullptr
       = ([], Throw (CheckFailed "THROW_CHECK_NOTNULL")) /\
     TriangulateOptimalPoint c1 c2 p1 p2 nullptr
       = ([], Throw (CheckFailed "THROW_CHECK_NOTNULL"))) /\
  (forall cams points xyz,
     (length cams <> length points ->
      TriangulateMultiViewPoint cams points xyz
        = ([], Throw (CheckFailed "THROW_CHECK_EQ"))) /\
     (length cams = length points ->
      TriangulateMultiViewPoint cams points nullptr
        = ([], Throw (CheckFailed "THROW_CHECK_NOTNULL")))).
Proof.
  repeat split; intros;
    auto using TriangulatePoint_nonnull, TriangulateMidPoint_nonnull,
      TriangulateMultiViewPoint_nonnull, TriangulateOptimalPoint_nonnull,
      TriangulatePoint_null, TriangulateOptimalPoint_null,
      TriangulateMultiViewPoint_size_mismatch, TriangulateMultiViewPoint_null.
Qed.

(** Two views, a solver that succeeds with a non-zero last coordinate. *)
Lemma triangulation_point_or_failure_witness :
  point_or_failure (ptr 7)
    (@TriangulateMultiViewPoint rational_scalar
       (fixed_kernel Success [[1; 0; 0; 2]; [0; 1; 0; 4]; [0; 0; 1; 6]; [2; 0; 0; 0]]%Q)
       [[]; []] [rational_point 0 0; rational_point 1 1] (ptr 7)).
Proof.
  apply (proj1 (proj2 (proj2
    (@triangulation_point_or_failure rational_scalar
       (fixed_kernel Success [[1; 0; 0; 2]; [0; 1; 0; 4]; [0; 0; 1; 6]; [2; 0; 0; 0]]%Q)
       7%N)))).
  reflexivity.
Defined.

(** C10: [TriangulateMultiViewPoint] throws, before any store and whatever
    the numeric kernel computes, when the two spans differ in size or when
    the output pointer is null.  With spans of equal size and a non-null
    pointer neither check fires, the accumulation loop over
    [i < cam_points.size()] reads both spans in bounds at every [i], and the
    call runs to its [return]. *)
Theorem multi_view_checks_and_bounds {scalar : Scalar} {kernel : EigenKernel}
    (cams : list Matrix) (points : list Vector2d) (xyz : pointer) :
  (length cams <> length points ->
   TriangulateMultiViewPoint cams points xyz
     = ([], Throw (CheckFailed "THROW_CHECK_EQ"))) /\
  (length cams = length points -> xyz = nullptr ->
   TriangulateMultiViewPoint cams points xyz
     = ([], Throw (CheckFailed "THROW_CHECK_NOTNULL"))) /\
  (length cams = length points -> forall a, xyz = ptr a ->
   (exists A, multi_view_loop cams points (length points) 0 Matrix4d_Zero
                = ([], Return A)) /\
   (exists w b, TriangulateMultiViewPoint cams points xyz = (w, Return b))).
Proof.
  split; [|split].
  - apply TriangulateMultiViewPoint_size_mismatch.
  - intros Hlen ->. apply TriangulateMultiViewPoint_null. exact Hlen.
  - intros Hlen a ->. split.
    + apply multi_view_loop_in_bounds; lia.
    + destruct (TriangulateMultiViewPoint_nonnull cams points a Hlen)
        as [(a' & p & _ & Hr)|Hr]; rewrite Hr; eauto.
Qed.

(** Two views, two observations, a non-null output pointer. *)
Lemma multi_view_checks_and_bounds_witness :
  (exists A, @multi_view_loop rational_scalar [[]; []] [rational_point 0 0; rational_point 1 1]
               2 0 Matrix4d_Zero = ([], Return A)) /\
  (exists w b,
     @TriangulateMultiViewPoint rational_scalar (fixed_kernel NoConvergence [])
       [[]; []] [rational_point 0 0; rational_point 1 1] (ptr 7) = (w, Return b)).
Proof.
  apply (proj2 (proj2
    (@multi_view_checks_and_bounds rational_scalar (fixed_kernel NoConvergence [])
       [[]; []] [rational_point 0 0; rational_point 1 1] (ptr 7))) eq_refl 7%N eq_refl).
Defined.

(** ** The option structs: [CacheSize] *)

Lemma size_t_of_int_nonneg (z : Z) :
  (0 <= z -> in_int_range z -> size_t_of_int z = z)%Z.
Proof.
  unfold size_t_of_int, in_int_range. intros H0 H1. apply Z.mod_small. lia.
Qed.

Lemma size_t_of_int_negative (z : Z) :
  (in_int_range z -> z < 0 -> size_t_of_int z = 2 ^ 64 + z)%Z.
Proof.
  unfold size_t_of_int, in_int_range. intros Hr Hz.
  symmetry. apply (Z.mod_unique z (2 ^ 64) (-1) (2 ^ 64 + z)); lia.
Qed.

Lemma size_t_of_int_range (z : Z) : (0 <= size_t_of_int z < 2 ^ 64)%Z.
Proof. unfold size_t_of_int. apply Z.mod_pos_bound. lia. Qed.

Lemma in_int_rangeb_spec (z : Z) : in_int_rangeb z = true <-> in_int_range z.
Proof. unfold in_int_rangeb, in_int_range. rewrite andb_true_iff. lia. Qed.

Lemma int_mul_exact (a b : Z) : in_int_range (a * b) -> int_mul a b = Some (a * b)%Z.
Proof.
  intros H. unfold int_mul. rewrite (proj2 (in_int_rangeb_spec _) H). reflexivity.
Qed.

Lemma int_mul_overflow (a b : Z) : ~ in_int_range (a * b) -> int_mul a b = None.
Proof.
  intros H. unfold int_mul. destruct (in_int_rangeb (a * b)) eqn:E; [|reflexivity].
  apply in_int_rangeb_spec in E. contradiction.
Qed.

Ltac fields_agree :=
  repeat match goal with H : _ = _ |- _ => rewrite H; clear H end; reflexivity.

(** C7 (amended): for each of the six option structs, [CacheSize] is a
    function of the struct alone, and within the struct of the integer
    fields its body names: two structs of the same kind that agree on those
    fields have the same [CacheSize], whatever their other fields, and
    nothing else (corpus, index, earlier calls) is an argument of it.
    Whenever no product it computes overflows [int], it returns a [size_t]
    value.  For [ExhaustivePairingOptions] that value is [block_size]
    converted to [size_t]: it is [block_size] when [block_size] is not
    negative and [2^64 + block_size] when it is negative, so it equals
    [block_size] exactly when [block_size >= 0].  For
    [SequentialPairingOptions] with non-negative fields it is the larger of
    [5 * loop_detection_num_images] and [5 * overlap]. *)
Theorem CacheSize_pure :
  (forall o o' : PairingOptions,
     strategy_tag o = strategy_tag o' -> CacheSizeInputs o = CacheSizeInputs o' ->
     CacheSize o = CacheSize o') /\
  (forall o : PairingOptions,
     List.Forall in_int_range (CacheSizeProducts o) ->
     exists v : Z, CacheSize o = Some v /\ (0 <= v < 2 ^ 64)%Z) /\
  (forall o : ExhaustivePairingOptions.t,
     let block_size := ExhaustivePairingOptions.block_size o in
     in_int_range block_size ->
     ((0 <= block_size)%Z -> CacheSize (OfExhaustive o) = Some block_size) /\
     ((block_size < 0)%Z -> CacheSize (OfExhaustive o) = Some (2 ^ 64 + block_size)%Z) /\
     (CacheSize (OfExhaustive o) = Some block_size <-> (0 <= block_size)%Z)) /\
  (forall o : SequentialPairingOptions.t,
     (0 <= SequentialPairingOptions.loop_detection_num_images o)%Z ->
     (0 <= SequentialPairingOptions.overlap o)%Z ->
     in_int_range (5 * SequentialPairingOptions.loop_detection_num_images o) ->
     in_int_range (5 * SequentialPairingOptions.overlap o) ->
     CacheSize (OfSequential o) =
       Some (Z.max (5 * SequentialPairingOptions.loop_detection_num_images o)
                   (5 * SequentialPairingOptions.overlap o))).
Proof.
  split; [|split; [|split]].
  - intros o o' Htag Hin.
    destruct o as [o|o|o|o|o|o], o' as [o'|o'|o'|o'|o'|o'];
      try discriminate Htag; clear Htag; simpl in *; injection Hin; intros.
    + unfold ExhaustivePairingOptions.CacheSize. fields_agree.
    + unfold VocabTreePairingOptions.CacheSize. fields_agree.
    + unfold SequentialPairingOptions.CacheSize. fields_agree.
    + unfold SpatialPairingOptions.CacheSize. fields_agree.
    + unfold TransitivePairingOptions.CacheSize. fields_agree.
    + unfold ImportedPairingOptions.CacheSize. fields_agree.
  - intros o Hp.
    destruct o as [o|o|o|o|o|o]; simpl in *;
      repeat match goal with
             | H : List.Forall _ (_ :: _) |- _ => apply List.Forall_cons_iff in H as [? H]
             end.
    + eexists. split; [reflexivity | apply size_t_of_int_range].
    + unfold VocabTreePairingOptions.CacheSize. rewrite int_mul_exact by assumption.
      eexists. split; [reflexivity | apply size_t_of_int_range].
    + unfold SequentialPairingOptions.CacheSize. rewrite !int_mul_exact by assumption.
      eexists. split; [reflexivity | apply size_t_of_int_range].
    + unfold SpatialPairingOptions.CacheSize. rewrite int_mul_exact by assumption.
      eexists. split; [reflexivity | apply size_t_of_int_range].
    + unfold TransitivePairingOptions.CacheSize. rewrite int_mul_exact by assumption.
      eexists. split; [reflexivity | apply size_t_of_int_range].
    + eexists. split; [reflexivity | apply size_t_of_int_range].
  - intros o block_size Hr. simpl. unfold ExhaustivePairingOptions.CacheSize.
    fold block_size.
    split; [|split].
    + intros H0. rewrite size_t_of_int_nonneg by assumption. reflexivity.
    + intros Hneg. rewrite size_t_of_int_negative by assumption. reflexivity.
    + split.
      * intros H. injection H as H.
        pose proof (size_t_of_int_range block_size) as Hb. lia.
      * intros H0. rewrite size_t_of_int_nonneg by assumption. reflexivity.
  - intros o H0 H1 H2 H3. simpl. unfold SequentialPairingOptions.CacheSize.
    rewrite !int_mul_exact by assumption. f_equal.
    apply size_t_of_int_nonneg; unfold in_int_range in *; lia.
Qed.

(** The default [SequentialPairingOptions]: the larger of 250 and 50. *)
Lemma CacheSize_pure_witness :
  CacheSize (OfSequential
    (SequentialPairingOptions.mk 10 true true false 10 50 1 64 0 (-1) (-1) EmptyString))
  = Some (Z.max (5 * 50) (5 * 10)).
Proof.
  apply (proj2 (proj2 (proj2 CacheSize_pure))
    (SequentialPairingOptions.mk 10 true true false 10 50 1 64 0 (-1) (-1) EmptyString));
    unfold in_int_range; simpl; lia.
Defined.

(** C7 (as stated, refuted): with [block_size = -1], an [int] like any
    other, [ExhaustivePairingOptions::CacheSize] is [2^64 - 1], not
    [block_size]; and with [loop_detection_num_images = 2^30] the product
    [5 * loop_detection_num_images] overflows [int], so that
    [SequentialPairingOptions::CacheSize] has no defined value at all. *)
Lemma CacheSize_negative_block_size :
  in_int_range (-1) /\
  CacheSize (OfExhaustive (ExhaustivePairingOptions.mk (-1)))
    = Some 18446744073709551615%Z /\
  CacheSize (OfExhaustive (ExhaustivePairingOptions.mk (-1)))
    <> Some (ExhaustivePairingOptions.block_size (ExhaustivePairingOptions.mk (-1))) /\
  in_int_range (2 ^ 30) /\
  CacheSize (OfSequential
    (SequentialPairingOptions.mk 10 true true false 10 (2 ^ 30) 1 64 0 (-1) (-1)
       EmptyString)) = None.
Proof.
  split; [unfold in_int_range; lia|].
  split; [reflexivity|].
  split; [discriminate|].
  split; [unfold in_int_range; lia | reflexivity].
Qed.

(** ** SpatialPairGenerator *)

Module SPG := SpatialPairGenerator.

Lemma ReadPositionPriorData_idxs (ignore_z : bool) (i : nat)
    (priors : list (image_t * option SPG.position)) :
  StronglySorted lt (map fst (SPG.ReadPositionPriorData ignore_z i priors)) /\
  List.Forall (fun x => i <= x < i + length priors)
              (map fst (SPG.ReadPositionPriorData ignore_z i priors)).
Proof.
  revert i. induction priors as [|[a [[[x y] z]|]] rest IH]; intros i; simpl.
  - split; constructor.
  - destruct (IH (S i)) as [Hs Hb]. split.
    + constructor; [exact Hs|].
      eapply List.Forall_impl; [|exact Hb]. simpl. intros; lia.
    + constructor; [lia|].
      eapply List.Forall_impl; [|exact Hb]. simpl. intros; lia.
  - destruct (IH (S i)) as [Hs Hb]. split; [exact Hs|].
    eapply List.Forall_impl; [|exact Hb]. simpl. intros; lia.
Qed.

Lemma insert_candidate_length (x : SPG.candidate) (l : list SPG.candidate) :
  length (SPG.insert_candidate x l) = S (length l).
Proof.
  induction l as [|y l IH]; simpl; [reflexivity|].
  destruct (SPG.candidate_leb x y); simpl; [reflexivity | rewrite IH; reflexivity].
Qed.

Lemma sort_candidates_length (l : list SPG.candidate) :
  length (SPG.sort_candidates l) = length l.
Proof.
  induction l as [|x l IH]; simpl; [reflexivity|].
  rewrite insert_candidate_length, IH. reflexivity.
Qed.

Lemma others_length {A} (f : nat -> A) (r s n : nat) :
  length (flat_map (fun r' => if Nat.eqb r' r then [] else [f r']) (seq s n))
    = if (s <=? r) && (r <? s + n) then n - 1 else n.
Proof.
  revert s. induction n as [|n IH]; intros s.
  - simpl. destruct ((s <=? r) && (r <? s + 0)); reflexivity.
  - cbn [seq flat_map]. rewrite length_app, IH.
    destruct (Nat.eqb_spec s r) as [Heq|Hne];
      destruct (Nat.leb_spec s r), (Nat.ltb_spec r (s + S n)),
        (Nat.leb_spec (S s) r), (Nat.ltb_spec r (S s + n)); simpl; lia.
Qed.

Lemma nth_map_seq {A} (f : nat -> A) (n r : nat) (d : A) :
  r < n -> nth r (map f (seq 0 n)) d = f r.
Proof.
  intros Hr. rewrite (nth_indep _ d (f 0)) by (rewrite length_map, length_seq; exact Hr).
  rewrite (map_nth f (seq 0 n) 0 r), seq_nth by exact Hr. reflexivity.
Qed.

Lemma skipn_nth_error {A} (l : list A) (c : nat) (x : A) :
  nth_error l c = Some x -> skipn c l = x :: skipn (S c) l.
Proof.
  revert c. induction l as [|y l IH]; intros [|c] H; simpl in H; try discriminate.
  - injection H as ->. reflexivity.
  - apply IH in H. exact H.
Qed.

Lemma spatial_drain (m : nat) :
  forall (fuel : nat) (g : SPG.t),
    SPG.current_idx_ g + m = length (SPG.image_pairs_ g) -> m <= fuel ->
    exists g',
      drain fuel g
        = Some (map (fun p => [p]) (skipn (SPG.current_idx_ g) (SPG.image_pairs_ g)), g')
      /\ HasFinished g' = true.
Proof.
  induction m as [|m IH]; intros fuel g Hc Hfuel.
  - assert (Hf : HasFinished g = true).
    { simpl. unfold SPG.HasFinished. apply Nat.leb_le. lia. }
    exists g. split; [|exact Hf].
    rewrite drain_finished by exact Hf.
    rewrite skipn_all2 by lia. reflexivity.
  - destruct fuel as [|fuel]; [lia|].
    assert (Hf : HasFinished g = false).
    { simpl. unfold SPG.HasFinished. apply Nat.leb_gt. lia. }
    rewrite drain_step by exact Hf.
    change (@Next SPG.t SPG.generator g) with (SPG.Next g).
    unfold SPG.Next.
    destruct (nth_error (SPG.image_pairs_ g) (SPG.current_idx_ g)) as [p|] eqn:Ep;
      [|apply nth_error_None in Ep; lia].
    simpl fst; simpl snd.
    match goal with |- context [drain fuel ?g1] =>
      destruct (IH fuel g1) as (g' & Hd & Hfin); [simpl; lia | lia |];
      exists g'; split; [|exact Hfin]; rewrite Hd
    end.
    simpl SPG.current_idx_; simpl SPG.image_pairs_.
    rewrite (skipn_nth_error _ _ _ Ep). reflexivity.
Qed.

Lemma concat_singletons {A} (l : list A) : concat (map (fun p => [p]) l) = l.
Proof. induction l as [|x l IH]; simpl; [reflexivity | rewrite IH; reflexivity]. Qed.

Lemma filter_none {A} (g : A -> bool) (l : list A) :
  (forall x, In x l -> g x = false) -> List.filter g l = [].
Proof.
  induction l as [|x l IH]; intros Hall; [reflexivity|].
  change (List.filter g (x :: l)) with (if g x then x :: List.filter g l else List.filter g l).
  rewrite (Hall x (or_introl eq_refl)). apply IH.
  intros y Hy. apply Hall. right. exact Hy.
Qed.

Lemma filter_all {A} (g : A -> bool) (l : list A) :
  (forall x, In x l -> g x = true) -> List.filter g l = l.
Proof.
  induction l as [|x l IH]; intros Hall; [reflexivity|].
  change (List.filter g (x :: l)) with (if g x then x :: List.filter g l else List.filter g l).
  rewrite (Hall x (or_introl eq_refl)). rewrite IH; [reflexivity|].
  intros y Hy. apply Hall. right. exact Hy.
Qed.

Lemma pairs_from_none (f : nat -> list ImagePair) (a : image_t) (l : list nat) :
  (forall r' p, In r' l -> In p (f r') -> fst p <> a) ->
  SPG.pairs_from a (flat_map f l) = [].
Proof.
  intros Hne. unfold SPG.pairs_from. apply filter_none.
  intros p Hp. apply in_flat_map in Hp as (r' & Hr' & Hp).
  apply N.eqb_neq. eauto.
Qed.

Lemma pairs_from_all (a : image_t) (l : list ImagePair) :
  (forall p, In p l -> fst p = a) -> SPG.pairs_from a l = l.
Proof.
  intros Hall. unfold SPG.pairs_from. apply filter_all.
  intros p Hp. apply N.eqb_eq. auto.
Qed.

Lemma pairs_from_app (a : image_t) (l1 l2 : list ImagePair) :
  SPG.pairs_from a (l1 ++ l2) = SPG.pairs_from a l1 ++ SPG.pairs_from a l2.
Proof. unfold SPG.pairs_from. apply List.filter_app. Qed.

Lemma pairs_from_rows (f : nat -> list ImagePair) (q : nat -> image_t)
    (l : list nat) (r : nat) :
  NoDup l -> In r l ->
  (forall r' p, In r' l -> In p (f r') -> fst p = q r') ->
  (forall r', In r' l -> q r' = q r -> r' = r) ->
  SPG.pairs_from (q r) (flat_map f l) = f r.
Proof.
  intros Hnd. induction Hnd as [|x l Hx Hnd IH]; intros Hr Hfst Hinj; [contradiction|].
  cbn [flat_map]. rewrite pairs_from_app.
  rewrite list_elem_of_In in Hx.
  destruct Hr as [->|Hr].
  - rewrite pairs_from_all by (intros p Hp; apply (Hfst r); [left; reflexivity | exact Hp]).
    rewrite pairs_from_none; [apply app_nil_r|].
    intros r' p Hr' Hp Heq.
    rewrite (Hfst r' p (or_intror Hr') Hp) in Heq.
    apply Hinj in Heq; [|right; exact Hr']. subst r'. contradiction.
  - assert (Hx0 : SPG.pairs_from (q r) (f x) = []).
    { rewrite <- (app_nil_r (f x)). apply (pairs_from_none (fun _ => f x) (q r) [x]).
      intros r' p [<-|[]] Hp Heq.
      rewrite (Hfst x p (or_introl eq_refl) Hp) in Heq.
      apply Hinj in Heq; [|left; reflexivity]. subst x. contradiction. }
    rewrite Hx0. simpl. apply IH; [exact Hr | |].
    + intros r' p Hr' Hp. apply Hfst; [right; exact Hr' | exact Hp].
    + intros r' Hr' Heq. apply Hinj; [right; exact Hr' | exact Heq].
Qed.

(** The search returns the neighbors nearest first. *)

Lemma candidate_leb_total (a b : SPG.candidate) :
  SPG.candidate_leb a b = false -> SPG.candidate_leb b a = true.
Proof.
  destruct a as [[d1 i1] r1], b as [[d2 i2] r2]. unfold SPG.candidate_leb.
  rewrite <- (Qcompare_antisym d1 d2).
  destruct (d1 ?= d2)%Q; simpl; try discriminate; try reflexivity.
  intros H. apply N.leb_gt in H. apply N.leb_le. lia.
Qed.

Lemma insert_candidate_sorted (x : SPG.candidate) (l : list SPG.candidate) :
  Sorted SPG.candidate_le l -> Sorted SPG.candidate_le (SPG.insert_candidate x l).
Proof.
  induction l as [|y l IH]; intros Hs; simpl.
  - repeat constructor.
  - destruct (SPG.candidate_leb x y) eqn:Hxy.
    + constructor; [exact Hs | constructor; exact Hxy].
    + apply Sorted_inv in Hs as [Hs Hhd]. constructor; [apply IH; exact Hs|].
      destruct l as [|z l]; simpl.
      * constructor. apply candidate_leb_total. exact Hxy.
      * destruct (SPG.candidate_leb x z).
        -- constructor. apply candidate_leb_total. exact Hxy.
        -- constructor. apply HdRel_inv in Hhd. exact Hhd.
Qed.

Lemma sort_candidates_sorted (l : list SPG.candidate) :
  Sorted SPG.candidate_le (SPG.sort_candidates l).
Proof.
  induction l as [|x l IH]; simpl; [constructor|].
  apply insert_candidate_sorted. exact IH.
Qed.

Lemma Sorted_firstn {A} (R : A -> A -> Prop) (n : nat) (l : list A) :
  Sorted R l -> Sorted R (firstn n l).
Proof.
  revert l. induction n as [|n IH]; intros l Hs; simpl; [constructor|].
  destruct l as [|x l]; [constructor|].
  apply Sorted_inv in Hs as [Hs Hhd]. constructor; [apply IH; exact Hs|].
  destruct l as [|y l]; destruct n; simpl; constructor.
  apply HdRel_inv in Hhd. exact Hhd.
Qed.

Lemma Sorted_map {A B} (R : A -> A -> Prop) (R' : B -> B -> Prop) (f : A -> B)
    (l : list A) :
  (forall a b, R a b -> R' (f a) (f b)) -> Sorted R l -> Sorted R' (map f l).
Proof.
  intros Hf Hs. induction Hs as [|x l Hs IH Hhd]; simpl; constructor; [exact IH|].
  destruct Hhd; simpl; constructor. apply Hf. assumption.
Qed.

Lemma candidate_le_distance (a b : SPG.candidate) :
  SPG.candidate_le a b -> (fst (fst a) <= fst (fst b))%Q.
Proof.
  destruct a as [[d1 i1] r1], b as [[d2 i2] r2].
  unfold SPG.candidate_le, SPG.candidate_leb. simpl. intros H.
  apply Qle_alt. destruct (d1 ?= d2)%Q; congruence.
Qed.


Lemma spatial_row_image_inj (priors : list (image_t * option SPG.position))
    (ignore_z : bool) (r r' : nat) :
  let ids := map fst priors in
  let pidx := map fst (SPG.ReadPositionPriorData ignore_z 0 priors) in
  NoDup ids -> r < length pidx -> r' < length pidx ->
  at_ ids (nth r' pidx 0) = at_ ids (nth r pidx 0) -> r' = r.
Proof.
  intros ids pidx Hnd Hr Hr' Heq.
  destruct (ReadPositionPriorData_idxs ignore_z 0 priors) as [Hs Hb].
  fold pidx in Hs, Hb. rewrite List.Forall_forall in Hb.
  assert (Hlen : length ids = length priors) by (unfold ids; apply length_map).
  apply (at_inj ids) in Heq; [|exact Hnd| |].
  - assert (Hnd' : List.NoDup pidx).
    { apply NoDup_ListNoDup.
      apply StronglySorted_irrefl_NoDup with (R := lt); [intros x; lia | exact Hs]. }
    exact (proj1 (List.NoDup_nth pidx 0) Hnd' r' r Hr' Hr Heq).
  - specialize (Hb _ (nth_In pidx 0 Hr')). lia.
  - specialize (Hb _ (nth_In pidx 0 Hr)). lia.
Qed.

(** *** The rows of the position matrix are the images with a prior *)

Lemma ReadPositionPriorData_positioned (ignore_z : bool)
    (rest : list (image_t * option SPG.position)) :
  forall pre : list image_t,
    map (fun e : nat * SPG.position => (at_ (pre ++ map fst rest) (fst e), snd e))
        (SPG.ReadPositionPriorData ignore_z (length pre) rest)
    = map (fun c : image_t * SPG.position => (fst c, SPG.projected ignore_z (snd c)))
          (SPG.positioned rest).
Proof.
  induction rest as [|[id [[[x y] z]|]] rest IH]; intros pre.
  - reflexivity.
  - cbn [SPG.ReadPositionPriorData].
    change (SPG.positioned ((id, Some (x, y, z)) :: rest))
      with ((id, (x, y, z)) :: SPG.positioned rest).
    cbn [map fst snd]. f_equal.
    + unfold at_. rewrite nth_middle. reflexivity.
    + specialize (IH (pre ++ [id])).
      rewrite length_app, Nat.add_1_r, <- app_assoc in IH. exact IH.
  - cbn [SPG.ReadPositionPriorData].
    change (SPG.positioned ((id, None) :: rest)) with (SPG.positioned rest).
    cbn [map fst snd].
    specialize (IH (pre ++ [id])).
    rewrite length_app, Nat.add_1_r, <- app_assoc in IH. exact IH.
Qed.

Lemma rows_entry (ignore_z : bool) (priors : list (image_t * option SPG.position))
    (r : nat) :
  let rows := SPG.ReadPositionPriorData ignore_z 0 priors in
  let entry := nth r (SPG.positioned priors) (0%N, (0, 0, 0)%Q) in
  length rows = length (SPG.positioned priors) /\
  (r < length (SPG.positioned priors) ->
   at_ (map fst priors) (fst (nth r rows (0, (0, 0, 0)%Q))) = fst entry /\
   snd (nth r rows (0, (0, 0, 0)%Q)) = SPG.projected ignore_z (snd entry)).
Proof.
  intros rows entry.
  pose proof (ReadPositionPriorData_positioned ignore_z priors []) as H.
  cbn [app length] in H. fold rows in H.
  assert (Hlen : length rows = length (SPG.positioned priors)).
  { apply (f_equal (@length _)) in H. rewrite !length_map in H. exact H. }
  split; [exact Hlen|]. intros Hr.
  apply (f_equal (fun l => nth r l (0%N, (0, 0, 0)%Q))) in H.
  rewrite (nth_indep _ (0%N, (0, 0, 0)%Q)
             ((fun e : nat * SPG.position => (at_ (map fst priors) (fst e), snd e))
                (0, (0, 0, 0)%Q))) in H
    by (rewrite length_map; lia).
  rewrite (map_nth (fun e : nat * SPG.position => (at_ (map fst priors) (fst e), snd e)))
    in H.
  rewrite (nth_indep _ (0%N, (0, 0, 0)%Q)
             ((fun c : image_t * SPG.position => (fst c, SPG.projected ignore_z (snd c)))
                (0%N, (0, 0, 0)%Q))) in H
    by (rewrite length_map; lia).
  rewrite (map_nth (fun c : image_t * SPG.position =>
                      (fst c, SPG.projected ignore_z (snd c)))) in H.
  fold entry in H. injection H as H1 H2. split; assumption.
Qed.

Lemma separation_projected (ignore_z : bool) (p q : SPG.position) :
  SPG.distance_squared (SPG.projected ignore_z p) (SPG.projected ignore_z q)
    = SPG.separation ignore_z p q.
Proof. destruct p as [[x1 y1] z1], q as [[x2 y2] z2]. reflexivity. Qed.

Lemma positioned_In (priors : list (image_t * option SPG.position))
    (a : image_t) (p : SPG.position) :
  In (a, p) (SPG.positioned priors) <-> In (a, Some p) priors.
Proof.
  unfold SPG.positioned. rewrite in_flat_map. split.
  - intros ([b [q|]] & Hin & Hx); simpl in Hx; [|contradiction].
    destruct Hx as [Hx|[]]. injection Hx as -> ->. exact Hin.
  - intros Hin. exists (a, Some p). split; [exact Hin | left; reflexivity].
Qed.

Lemma positioned_NoDup (priors : list (image_t * option SPG.position)) :
  List.NoDup (map fst priors) -> List.NoDup (map fst (SPG.positioned priors)).
Proof.
  induction priors as [|[id [p|]] rest IH]; intros Hnd; simpl in *.
  - constructor.
  - apply List.NoDup_cons_iff in Hnd as [Hnotin Hnd].
    change (SPG.positioned ((id, Some p) :: rest)) with ((id, p) :: SPG.positioned rest).
    simpl. constructor; [|apply IH; exact Hnd].
    intros Hin. apply Hnotin.
    apply in_map_iff in Hin as ([b q] & Hb & Hin). simpl in Hb. subst b.
    apply positioned_In in Hin.
    apply in_map_iff. exists (id, Some q). split; [reflexivity | exact Hin].
  - apply List.NoDup_cons_iff in Hnd as [_ Hnd].
    change (SPG.positioned ((id, None) :: rest)) with (SPG.positioned rest).
    apply IH. exact Hnd.
Qed.

(** *** Lists read by index *)

Lemma flat_map_guard {A B} (p : A -> bool) (g : A -> B) (l : list A) :
  flat_map (fun x => if p x then [] else [g x]) l
    = map g (List.filter (fun x => negb (p x)) l).
Proof.
  induction l as [|x l IH]; [reflexivity|].
  cbn [flat_map].
  change (List.filter (fun x => negb (p x)) (x :: l))
    with (if negb (p x) then x :: List.filter (fun x => negb (p x)) l
          else List.filter (fun x => negb (p x)) l).
  rewrite IH. destruct (p x); reflexivity.
Qed.

Lemma filter_map_comm {A B} (p : B -> bool) (f : A -> B) (l : list A) :
  List.filter p (map f l) = map f (List.filter (fun x => p (f x)) l).
Proof.
  induction l as [|x l IH]; [reflexivity|].
  cbn [map].
  change (List.filter p (f x :: map f l))
    with (if p (f x) then f x :: List.filter p (map f l) else List.filter p (map f l)).
  change (List.filter (fun x => p (f x)) (x :: l))
    with (if p (f x) then x :: List.filter (fun x => p (f x)) l
          else List.filter (fun x => p (f x)) l).
  rewrite IH. destruct (p (f x)); reflexivity.
Qed.

Lemma filter_ext_In {A} (p q : A -> bool) (l : list A) :
  (forall x, In x l -> p x = q x) -> List.filter p l = List.filter q l.
Proof.
  induction l as [|x l IH]; intros Hext; [reflexivity|].
  change (List.filter p (x :: l))
    with (if p x then x :: List.filter p l else List.filter p l).
  change (List.filter q (x :: l))
    with (if q x then x :: List.filter q l else List.filter q l).
  rewrite (Hext x (or_introl eq_refl)), IH; [reflexivity|].
  intros y Hy. apply Hext. right. exact Hy.
Qed.

Lemma flat_map_ext_In {A B} (f g : A -> list B) (l : list A) :
  (forall x, In x l -> f x = g x) -> flat_map f l = flat_map g l.
Proof.
  induction l as [|x l IH]; intros Hext; [reflexivity|].
  cbn [flat_map]. rewrite (Hext x (or_introl eq_refl)), IH; [reflexivity|].
  intros y Hy. apply Hext. right. exact Hy.
Qed.

Lemma map_nth_all {A} (l : list A) (d : A) :
  map (fun i => nth i l d) (seq 0 (length l)) = l.
Proof.
  induction l as [|x l IH]; [reflexivity|].
  cbn [length seq map nth]. f_equal.
  rewrite <- seq_shift, map_map. exact IH.
Qed.

(** The entries of a list other than the one with key [a], by position. *)
Lemma others_by_row {B} (l : list (image_t * B)) (d : image_t * B) (a : image_t)
    (r : nat) :
  List.NoDup (map fst l) -> r < length l -> fst (nth r l d) = a ->
  List.filter (fun c => negb (N.eqb (fst c) a)) l
    = map (fun i => nth i l d)
          (List.filter (fun i => negb (Nat.eqb i r)) (seq 0 (length l))).
Proof.
  intros Hnd Hr Ha.
  rewrite <- (map_nth_all l d) at 1.
  rewrite filter_map_comm. f_equal.
  apply filter_ext_In. intros i Hi. apply in_seq in Hi. f_equal.
  destruct (Nat.eqb_spec i r) as [->|Hne].
  - apply N.eqb_eq. exact Ha.
  - apply N.eqb_neq. intros Heq. apply Hne.
    apply (proj1 (List.NoDup_nth (map fst l) (fst d)) Hnd);
      [rewrite length_map; lia | rewrite length_map; lia |].
    rewrite !(map_nth fst). rewrite Ha. exact Heq.
Qed.

(** *** The search: a permutation of the candidates, nearest first *)

Lemma insert_candidate_perm (x : SPG.candidate) (l : list SPG.candidate) :
  Permutation (SPG.insert_candidate x l) (x :: l).
Proof.
  induction l as [|y l IH]; simpl; [reflexivity|].
  destruct (SPG.candidate_leb x y); [reflexivity|].
  rewrite IH. apply perm_swap.
Qed.

Lemma sort_candidates_perm (l : list SPG.candidate) :
  Permutation (SPG.sort_candidates l) l.
Proof.
  induction l as [|x l IH]; simpl; [reflexivity|].
  rewrite insert_candidate_perm, IH. reflexivity.
Qed.

Lemma filter_length_perm {A} (p : A -> bool) (l l' : list A) :
  Permutation l l' -> length (List.filter p l) = length (List.filter p l').
Proof.
  induction 1 as [|x l l' _ IH|x y l|l l' l'' _ IH1 _ IH2].
  - reflexivity.
  - change (List.filter p (x :: l))
      with (if p x then x :: List.filter p l else List.filter p l).
    change (List.filter p (x :: l'))
      with (if p x then x :: List.filter p l' else List.filter p l').
    destruct (p x); simpl; rewrite IH; reflexivity.
  - change (List.filter p (y :: x :: l))
      with (if p y then y :: (if p x then x :: List.filter p l else List.filter p l)
            else (if p x then x :: List.filter p l else List.filter p l)).
    change (List.filter p (x :: y :: l))
      with (if p x then x :: (if p y then y :: List.filter p l else List.filter p l)
            else (if p y then y :: List.filter p l else List.filter p l)).
    destruct (p x), (p y); reflexivity.
  - rewrite IH1. exact IH2.
Qed.

Lemma Qle_bool_above (d d' D : Q) :
  Qle_bool d D = false -> (d <= d')%Q -> Qle_bool d' D = false.
Proof.
  intros Hd Hle. destruct (Qle_bool d' D) eqn:E; [|reflexivity].
  apply Qle_bool_iff in E.
  assert (Hc : Qle_bool d D = true) by (apply Qle_bool_iff; eapply Qle_trans; eassumption).
  congruence.
Qed.

Lemma Sorted_Qle_strong (l : list Q) : Sorted Qle l -> StronglySorted Qle l.
Proof. apply Sorted_StronglySorted. intros x y z. apply Qle_trans. Qed.

Lemma filter_within_above (d D : Q) (l : list Q) :
  Qle_bool d D = false -> List.Forall (Qle d) l ->
  List.filter (fun x => Qle_bool x D) l = [].
Proof.
  intros Hd Hall. apply filter_none. intros x Hx.
  rewrite List.Forall_forall in Hall.
  exact (Qle_bool_above d x D Hd (Hall x Hx)).
Qed.

Lemma firstn_incl {A} (n : nat) (l : list A) (x : A) : In x (firstn n l) -> In x l.
Proof.
  intros Hx. rewrite <- (firstn_skipn n l). apply in_or_app. left. exact Hx.
Qed.

(** Among neighbors listed nearest first, those within a distance are the
    first ones. *)
Lemma within_firstn (D : Q) (l : list Q) :
  StronglySorted Qle l ->
  forall n, length (List.filter (fun x => Qle_bool x D) (firstn n l))
            = Nat.min n (length (List.filter (fun x => Qle_bool x D) l)).
Proof.
  induction 1 as [|d l Hs IH Hall]; intros [|n]; try reflexivity.
  - cbn [firstn].
    change (List.filter (fun x => Qle_bool x D) (d :: firstn n l))
      with (if Qle_bool d D then d :: List.filter (fun x => Qle_bool x D) (firstn n l)
            else List.filter (fun x => Qle_bool x D) (firstn n l)).
    change (List.filter (fun x => Qle_bool x D) (d :: l))
      with (if Qle_bool d D then d :: List.filter (fun x => Qle_bool x D) l
            else List.filter (fun x => Qle_bool x D) l).
    destruct (Qle_bool d D) eqn:Hd.
    + cbn [length]. rewrite IH. reflexivity.
    + rewrite (filter_within_above d D l Hd Hall).
      rewrite (filter_within_above d D (firstn n l) Hd).
      * reflexivity.
      * rewrite List.Forall_forall in *. intros x Hx.
        apply Hall. apply (firstn_incl n l x Hx).
Qed.

(** The neighbors kept from a row listed nearest first: the first
    [min_num_neighbors] of the row, or all those within the distance when
    these are more. *)
Lemma kept_neighbors_prefix (m : Z) (D : Q) (index_row : list nat) :
  forall (distance_row : list Q) (j : nat),
    length index_row = length distance_row ->
    StronglySorted Qle distance_row ->
    SPG.kept_neighbors m D j index_row distance_row
      = firstn (Nat.max (Z.to_nat m - j)
                        (length (List.filter (fun x => Qle_bool x D) distance_row)))
               index_row.
Proof.
  induction index_row as [|nn index_row IH]; intros [|d distance_row] j Hlen Hs;
    simpl in Hlen; try discriminate.
  - rewrite firstn_nil. reflexivity.
  - injection Hlen as Hlen. apply StronglySorted_inv in Hs as [Hs Hall].
    cbn [SPG.kept_neighbors].
    change (List.filter (fun x => Qle_bool x D) (d :: distance_row))
      with (if Qle_bool d D then d :: List.filter (fun x => Qle_bool x D) distance_row
            else List.filter (fun x => Qle_bool x D) distance_row).
    rewrite (IH distance_row (S j) Hlen Hs).
    destruct (Qle_bool d D) eqn:Hd.
    + rewrite orb_true_r. cbn [length].
      replace (Nat.max (Z.to_nat m - j)
                 (S (length (List.filter (fun x => Qle_bool x D) distance_row))))
        with (S (Nat.max (Z.to_nat m - S j)
                   (length (List.filter (fun x => Qle_bool x D) distance_row))))
        by lia.
      reflexivity.
    + rewrite orb_false_r. rewrite (filter_within_above d D distance_row Hd Hall).
      cbn [length]. rewrite !Nat.max_0_r.
      destruct (Z.ltb_spec (Z.of_nat j) m) as [Hjm|Hjm].
      * replace (Z.to_nat m - j) with (S (Z.to_nat m - S j)) by lia. reflexivity.
      * replace (Z.to_nat m - j) with 0 by lia.
        replace (Z.to_nat m - S j) with 0 by lia. reflexivity.
Qed.

Lemma StronglySorted_firstn {A} (R : A -> A -> Prop) (n : nat) (l : list A) :
  StronglySorted R l -> StronglySorted R (firstn n l).
Proof.
  intros Hs. revert n. induction Hs as [|x l Hs IH Hall]; intros [|n]; simpl;
    try constructor.
  - apply IH.
  - rewrite List.Forall_forall in *. intros y Hy. apply Hall.
    exact (firstn_incl n l y Hy).
Qed.

Lemma StronglySorted_app_le {A} (R : A -> A -> Prop) (l1 l2 : list A) (x y : A) :
  StronglySorted R (l1 ++ l2) -> In x l1 -> In y l2 -> R x y.
Proof.
  induction l1 as [|z l1 IH]; intros Hs Hx Hy; [contradiction|].
  simpl in Hs. apply StronglySorted_inv in Hs as [Hs Hall].
  destruct Hx as [->|Hx].
  - rewrite List.Forall_forall in Hall. apply Hall. apply in_or_app. right. exact Hy.
  - apply IH; assumption.
Qed.

Lemma Sorted_map_In {A B} (R : A -> A -> Prop) (R' : B -> B -> Prop) (f : A -> B)
    (l : list A) :
  (forall a b, In a l -> In b l -> R a b -> R' (f a) (f b)) ->
  Sorted R l -> Sorted R' (map f l).
Proof.
  intros Hf Hs. induction Hs as [|x l Hs IH Hhd]; simpl; constructor.
  - apply IH. intros a b Ha Hb. apply Hf; right; assumption.
  - destruct Hhd as [|y l' Hxy]; simpl; constructor.
    apply Hf; [left; reflexivity | right; left; reflexivity | exact Hxy].
Qed.

Lemma NoDup_map_filter {A B} (f : A -> B) (p : A -> bool) (l : list A) :
  List.NoDup (map f l) -> List.NoDup (map f (List.filter p l)).
Proof.
  induction l as [|x l IH]; intros Hnd; [constructor|].
  simpl in Hnd. apply List.NoDup_cons_iff in Hnd as [Hnotin Hnd].
  change (List.filter p (x :: l))
    with (if p x then x :: List.filter p l else List.filter p l).
  destruct (p x); [|apply IH; exact Hnd].
  simpl. constructor; [|apply IH; exact Hnd].
  intros Hin. apply Hnotin.
  apply in_map_iff in Hin as (y & Hy & Hin).
  apply in_map_iff. exists y. split; [exact Hy|].
  apply List.filter_In in Hin. tauto.
Qed.

Lemma NoDup_firstn {A} (n : nat) (l : list A) : List.NoDup l -> List.NoDup (firstn n l).
Proof.
  intros Hnd. rewrite <- (firstn_skipn n l) in Hnd.
  exact (List.NoDup_app_remove_r _ _ Hnd).
Qed.

Lemma other_rows_length (r n : nat) :
  r < n -> length (List.filter (fun i => negb (Nat.eqb i r)) (seq 0 n)) = n - 1.
Proof.
  intros Hr.
  pose proof (others_length (fun i : nat => i) r 0 n) as H.
  rewrite (flat_map_guard (fun i => Nat.eqb i r) (fun i : nat => i)) in H.
  rewrite length_map in H. rewrite H.
  replace (0 <=? r) with true by (symmetry; apply Nat.leb_le; lia).
  replace (r <? 0 + n) with true by (symmetry; apply Nat.ltb_lt; lia).
  reflexivity.
Qed.

(** The search result of the row of image [a], over the images with a
    prior: the candidates are the other rows, each with its image and its
    squared distance to [a]. *)
Lemma nearest_candidates (ignore_z : bool)
    (priors : list (image_t * option SPG.position)) (knn r : nat)
    (a : image_t) (pa : SPG.position) :
  let rows := SPG.ReadPositionPriorData ignore_z 0 priors in
  let PO := SPG.positioned priors in
  let cand := fun i : nat =>
    (SPG.separation ignore_z pa (snd (nth i PO (0%N, (0, 0, 0)%Q))),
     fst (nth i PO (0%N, (0, 0, 0)%Q)), i) in
  r < length PO -> nth r PO (0%N, (0, 0, 0)%Q) = (a, pa) ->
  SPG.nearest (map fst priors) rows knn r
    = firstn knn
        (SPG.sort_candidates
           (map cand (List.filter (fun i => negb (Nat.eqb i r)) (seq 0 (length PO))))).
Proof.
  intros rows PO cand Hr Hent.
  destruct (rows_entry ignore_z priors r) as [Hlen Hrow]. fold rows PO in Hlen, Hrow.
  destruct (Hrow Hr) as [_ Hq]. rewrite Hent in Hq. simpl in Hq.
  unfold SPG.nearest. fold rows. rewrite Hq, Hlen.
  f_equal. f_equal.
  rewrite <- (flat_map_guard (fun i => Nat.eqb i r) cand).
  apply flat_map_ext_In.
  intros i Hi. apply in_seq in Hi.
  destruct (Nat.eqb i r); [reflexivity|].
  destruct (rows_entry ignore_z priors i) as [_ Hrowi]. fold rows PO in Hrowi.
  destruct (Hrowi ltac:(lia)) as [Hid Hpos].
  cbv zeta. rewrite Hid, Hpos, separation_projected. reflexivity.
Qed.

Lemma kept_count (k near n : nat) (max_num_neighbors : Z) :
  1 <= n ->
  Nat.min (Nat.min (Nat.max k
                      (Nat.min (Z.to_nat (Z.min max_num_neighbors (Z.of_nat n - 1))) near))
                   (Z.to_nat (Z.min max_num_neighbors (Z.of_nat n - 1))))
          (n - 1)
    = Nat.min (Nat.max k near) (Nat.min (Z.to_nat max_num_neighbors) (n - 1)).
Proof. lia. Qed.




(** ** TransitivePairGenerator: no pair is emitted twice *)

Module TPG := TransitivePairGenerator.

Lemma propose_inv (emitted pending : list ImagePair) (ids : gset image_pair_t)
    (p : ImagePair) :
  NoDup (map PairId (emitted ++ pending)) ->
  (forall q, In q (emitted ++ pending) -> PairId q ∈ ids) ->
  NoDup (map PairId (emitted ++ fst (TPG.propose (pending, ids) p))) /\
  (forall q, In q (emitted ++ fst (TPG.propose (pending, ids) p)) ->
             PairId q ∈ snd (TPG.propose (pending, ids) p)).
Proof.
  intros Hnd Hids. unfold TPG.propose. cbn [fst snd].
  destruct (N.eqb (fst p) (snd p)); [split; assumption|].
  destruct (bool_decide (PairId p ∈ ids)) eqn:Hmem; [split; assumption|].
  apply bool_decide_eq_false in Hmem. cbn [fst snd].
  rewrite app_assoc. split.
  - rewrite map_app. apply NoDup_app. split; [exact Hnd|]. split.
    + intros x Hx Hp. rewrite list_elem_of_In in Hx, Hp.
      apply in_map_iff in Hx as (q & <- & Hq).
      destruct Hp as [Hp|[]]. apply Hmem. rewrite Hp. apply Hids. exact Hq.
    + simpl. apply NoDup_singleton.
  - intros q Hq. apply in_app_or in Hq as [Hq|[<-|[]]].
    + apply elem_of_union_r. apply Hids. exact Hq.
    + apply elem_of_union_l, elem_of_singleton. reflexivity.
Qed.

Lemma fold_propose_inv (emitted : list ImagePair) (cands : list ImagePair) :
  forall (st : list ImagePair * gset image_pair_t),
    NoDup (map PairId (emitted ++ fst st)) ->
    (forall q, In q (emitted ++ fst st) -> PairId q ∈ snd st) ->
    NoDup (map PairId (emitted ++ fst (fold_left TPG.propose cands st))) /\
    (forall q, In q (emitted ++ fst (fold_left TPG.propose cands st)) ->
               PairId q ∈ snd (fold_left TPG.propose cands st)).
Proof.
  induction cands as [|p cands IH]; intros [pending ids] Hnd Hids; simpl.
  - split; assumption.
  - destruct (propose_inv emitted pending ids p Hnd Hids) as [Hnd' Hids'].
    apply IH; assumption.
Qed.

Lemma take_batch_inv (emitted : list ImagePair) (g : TPG.t) :
  TPG.dedup_inv emitted g ->
  TPG.dedup_inv (emitted ++ fst (TPG.take_batch g)) (snd (TPG.take_batch g)).
Proof.
  intros [Hnd Hids]. unfold TPG.dedup_inv, TPG.take_batch. simpl.
  rewrite <- app_assoc, firstn_skipn. split; assumption.
Qed.

Lemma next_round_inv (emitted : list ImagePair) (rounds : nat) :
  forall g : TPG.t,
    TPG.image_pairs_ g = [] -> TPG.dedup_inv emitted g ->
    TPG.dedup_inv (emitted ++ fst (TPG.next_round rounds g))
                  (snd (TPG.next_round rounds g)).
Proof.
  induction rounds as [|rounds IH]; intros g Hempty Hinv; cbn [TPG.next_round].
  - cbn [fst snd]. rewrite app_nil_r. exact Hinv.
  - destruct (_ <=? _)%Z; [cbn [fst snd]; rewrite app_nil_r; exact Hinv|].
    destruct Hinv as [Hnd Hids]. rewrite Hempty in Hnd, Hids.
    set (known := TPG.image_pair_ids_ g ∪ list_to_set (map PairId (TPG.cache_ g))).
    set (st := TPG.closure_round known).
    assert (Hst : NoDup (map PairId (emitted ++ fst st)) /\
                  (forall q, In q (emitted ++ fst st) -> PairId q ∈ snd st)).
    { apply (fold_propose_inv emitted (TPG.proposals (TPG.directed (elements known)))
               ([], known)).
      - exact Hnd.
      - intros q Hq. apply elem_of_union_l. apply Hids. exact Hq. }
    destruct Hst as [Hnd' Hids'].
    destruct (fst st) as [|p0 pending] eqn:Hpending.
    + apply IH; [reflexivity|]. split; cbn [TPG.image_pairs_ TPG.image_pair_ids_];
        assumption.
    + apply take_batch_inv. split; cbn [TPG.image_pairs_ TPG.image_pair_ids_];
        assumption.
Qed.

Lemma transitive_Next_inv (emitted : list ImagePair) (g : TPG.t) :
  TPG.dedup_inv emitted g ->
  TPG.dedup_inv (emitted ++ fst (TPG.Next g)) (snd (TPG.Next g)).
Proof.
  intros Hinv. unfold TPG.Next.
  destruct (TPG.image_pairs_ g) as [|p0 pending] eqn:Hp.
  - apply next_round_inv; assumption.
  - apply take_batch_inv. exact Hinv.
Qed.

Lemma transitive_run_inv (n : nat) :
  forall (emitted : list ImagePair) (g : TPG.t),
    TPG.dedup_inv emitted g ->
    TPG.dedup_inv (emitted ++ concat (fst (run n g))) (snd (run n g)).
Proof.
  induction n as [|n IH]; intros emitted g Hinv; simpl.
  - rewrite app_nil_r. exact Hinv.
  - change (@Next TPG.t TPG.generator g) with (TPG.Next g).
    pose proof (transitive_Next_inv emitted g Hinv) as Hstep.
    destruct (TPG.Next g) as [batch g1]. simpl in Hstep.
    specialize (IH (emitted ++ batch) g1 Hstep).
    destruct (run n g1) as [batches g2]. simpl in *.
    rewrite app_assoc. exact IH.
Qed.

(** C5 (TransitivePairGenerator, dedup): across any number of calls of
    [Next] after [Reset], the emitted pairs carry pairwise different
    canonical pair ids, each of them held in [image_pair_ids_]: no unordered
    pair is emitted twice.  On the seed path graph {(1,2),(2,3),(3,4)} with
    [num_iterations = 2], the first call of [Next] is round 1 and yields
    exactly the pairs {(1,3),(2,4)}, the second is round 2 and yields
    exactly {(1,4)} (so (1,3) is not emitted again), and the generator has
    then finished. *)
Theorem transitive_dedup :
  (forall (g : TPG.t) (n : nat),
     NoDup (map PairId (concat (fst (run n (Reset g))))) /\
     (forall p, In p (concat (fst (run n (Reset g)))) ->
                PairId p ∈ TPG.image_pair_ids_ (snd (run n (Reset g))))) /\
  (exists (round1 round2 : list ImagePair) (g1 g2 : TPG.t),
     Next (Reset (TPG.new TPG.path_options TPG.path_graph)) = (round1, g1) /\
     Next g1 = (round2, g2) /\
     TPG.current_iteration_ g1 = 1%Z /\ TPG.current_iteration_ g2 = 2%Z /\
     Permutation (map PairId round1) [(1, 3); (2, 4)]%N /\
     map PairId round2 = [(1, 4)]%N /\
     ~ In (1, 3)%N (map PairId round2) /\
     HasFinished g2 = true /\ fst (Next g2) = []).
Proof.
  split.
  - intros g n.
    assert (Hinit : TPG.dedup_inv [] (Reset g)).
    { split; simpl; [apply NoDup_nil_2 | intros p []]. }
    destruct (transitive_run_inv n [] (Reset g) Hinit) as [Hnd Hids].
    cbn [app] in Hnd, Hids. rewrite map_app in Hnd.
    apply NoDup_app in Hnd as (Hnd & _ & _).
    split; [exact Hnd|]. intros p Hp. apply Hids, in_or_app. left. exact Hp.
  - eexists _, _, _, _.
    split; [vm_compute; reflexivity|].
    split; [vm_compute; reflexivity|].
    split; [reflexivity|]. split; [reflexivity|].
    split; [vm_compute; apply perm_swap|].
    split; [vm_compute; reflexivity|].
    split; [vm_compute; intros [H|[]]; discriminate H|].
    split; vm_compute; reflexivity.
Qed.


(* ===================================================================== *)
(** * Part III: further properties of the source                          *)
(* ===================================================================== *)

(** ** Triangulation angles *)

Lemma nth_error_lookup {A} (l : list A) (i : nat) : nth_error l i = l !! i.
Proof.
  revert i. induction l as [|x l IH]; intros [|i]; simpl; try reflexivity. apply IH.
Qed.

Section TriangulationAngleFacts.
Context {scalar : Scalar} {math : ScalarMath}.

Lemma angles_loop_spec (b : double) (c1 c2 : Vector3d) (points : list Vector3d) :
  forall (n i : nat) (angles : list double),
    i + n = length points -> length angles = length points ->
    angles_loop b c1 c2 points n i angles
      = ([], Return (take i angles
                     ++ map (CalculateTriangulationAngleWithKnownBaseline b c1 c2)
                            (drop i points))).
Proof.
  induction n as [|n IH]; intros i angles Hin Hlen; simpl.
  - rewrite take_ge, drop_ge by lia. rewrite app_nil_r. reflexivity.
  - unfold span_at. rewrite nth_error_lookup.
    destruct (lookup_lt_is_Some_2 points i ltac:(lia)) as [p Hp]. rewrite Hp. simpl.
    unfold vector_set.
    replace (i <? length angles) with true by (symmetry; apply Nat.ltb_lt; lia).
    simpl. rewrite IH by (rewrite ?length_insert; lia).
    rewrite (drop_S points p i Hp). simpl.
    rewrite (take_S_r _ i (CalculateTriangulationAngleWithKnownBaseline b c1 c2 p))
      by (apply list_lookup_insert_eq; lia).
    rewrite take_insert_ge by lia. rewrite <- app_assoc. reflexivity.
Qed.

(** X1: [CalculateTriangulationAngles] runs to its [return] without reading
    or writing past the end of a vector, and the vector it returns holds,
    for every point in order, the value [CalculateTriangulationAngle]
    returns for that point: as many angles as points, none for an empty
    input. *)
Theorem CalculateTriangulationAngles_elementwise (c1 c2 : Vector3d)
    (points : list Vector3d) :
  CalculateTriangulationAngles c1 c2 points
    = ([], Return (map (CalculateTriangulationAngle c1 c2) points)).
Proof.
  unfold CalculateTriangulationAngles.
  rewrite angles_loop_spec by (rewrite ?repeat_length; lia).
  reflexivity.
Qed.

Lemma squaredNorm_sub_sym (a b : Vector3d) :
  (forall x y : double, d_mul (d_sub x y) (d_sub x y) = d_mul (d_sub y x) (d_sub y x)) ->
  squaredNorm (v3_sub a b) = squaredNorm (v3_sub b a).
Proof.
  intros Hsq. unfold squaredNorm, v3_sub. simpl.
  rewrite (Hsq (v3_0 a)), (Hsq (v3_1 a)), (Hsq (v3_2 a)). reflexivity.
Qed.

(** X5: when addition and multiplication of [double] commute and
    [(x - y) * (x - y)] equals [(y - x) * (y - x)], as in IEEE arithmetic
    on numbers, [CalculateTriangulationAngle] does not depend on the order
    of the two projection centers. *)
Theorem CalculateTriangulationAngle_symmetric (c1 c2 p : Vector3d) :
  (forall x y : double, d_add x y = d_add y x) ->
  (forall x y : double, d_mul x y = d_mul y x) ->
  (forall x y : double, d_mul (d_sub x y) (d_sub x y) = d_mul (d_sub y x) (d_sub y x)) ->
  CalculateTriangulationAngle c1 c2 p = CalculateTriangulationAngle c2 c1 p.
Proof.
  intros Hadd Hmul Hsq.
  unfold CalculateTriangulationAngle, CalculateTriangulationAngleWithKnownBaseline.
  rewrite (squaredNorm_sub_sym c1 c2 Hsq).
  rewrite (Hmul (squaredNorm (v3_sub p c1)) (squaredNorm (v3_sub p c2))).
  rewrite (Hadd (squaredNorm (v3_sub p c1)) (squaredNorm (v3_sub p c2))).
  reflexivity.
Qed.

End TriangulationAngleFacts.

Lemma Qplus_comm_eq (x y : Q) : Qplus x y = Qplus y x.
Proof.
  destruct x as [a b], y as [c d]. unfold Qplus. simpl.
  f_equal; [ring | apply Pos.mul_comm].
Qed.

Lemma Qmult_comm_eq (x y : Q) : Qmult x y = Qmult y x.
Proof.
  destruct x as [a b], y as [c d]. unfold Qmult. simpl.
  f_equal; [ring | apply Pos.mul_comm].
Qed.

Lemma Qsquare_diff_eq (x y : Q) :
  Qmult (Qminus x y) (Qminus x y) = Qmult (Qminus y x) (Qminus y x).
Proof.
  destruct x as [a b], y as [c d]. unfold Qminus, Qplus, Qopp, Qmult. simpl.
  f_equal; [ring | rewrite (Pos.mul_comm b d); reflexivity].
Qed.

(** Two cameras on the x axis and a point above them. *)
Lemma CalculateTriangulationAngle_symmetric_witness :
  @CalculateTriangulationAngle rational_scalar rational_math
     (rational_vector 0 0 0) (rational_vector 2 0 0) (rational_vector 1 1 0)
  = @CalculateTriangulationAngle rational_scalar rational_math
     (rational_vector 2 0 0) (rational_vector 0 0 0) (rational_vector 1 1 0).
Proof.
  apply (@CalculateTriangulationAngle_symmetric rational_scalar rational_math).
  - exact Qplus_comm_eq.
  - exact Qmult_comm_eq.
  - exact Qsquare_diff_eq.
Defined.

(** ** Triangulation: the views of the multi-view system, the guards *)

Section TriangulationMoreFacts.
Context {scalar : Scalar} {kernel : EigenKernel}.

Lemma multi_view_loop_fold (cams : list Matrix) (points : list Vector2d) :
  forall (n i : nat) (A : Matrix),
    i + n = length points -> length cams = length points ->
    multi_view_loop cams points n i A
      = ([], Return (fold_left
                       (fun A view => mat_add A (multi_view_term (fst view) (snd view)))
                       (combine (drop i cams) (drop i points)) A)).
Proof.
  induction n as [|n IH]; intros i A Hin Hlen; simpl.
  - rewrite (drop_ge points) by lia. rewrite combine_nil. reflexivity.
  - unfold span_at. rewrite !nth_error_lookup.
    destruct (lookup_lt_is_Some_2 points i ltac:(lia)) as [p Hp].
    destruct (lookup_lt_is_Some_2 cams i ltac:(lia)) as [c Hc].
    rewrite Hp, Hc. simpl. rewrite IH by lia.
    rewrite (drop_S points p i Hp), (drop_S cams c i Hc). reflexivity.
Qed.

Lemma combine_app_eq {A B} (l1 l2 : list A) (k1 k2 : list B) :
  length l1 = length k1 ->
  combine (l1 ++ l2) (k1 ++ k2) = combine l1 k1 ++ combine l2 k2.
Proof.
  revert k1. induction l1 as [|x l1 IH]; intros [|y k1] Hlen; simpl in *;
    try discriminate; [reflexivity|].
  rewrite IH by lia. reflexivity.
Qed.

Lemma TriangulateMultiViewPoint_solve (cams : list Matrix)
    (points : list Vector2d) (a : N) :
  length cams = length points ->
  TriangulateMultiViewPoint cams points (ptr a)
    = multi_view_solve (multi_view_matrix cams points) (ptr a).
Proof.
  intros Hlen. unfold TriangulateMultiViewPoint, THROW_CHECK_EQ.
  rewrite (proj2 (Nat.eqb_eq _ _) Hlen). simpl.
  rewrite multi_view_loop_fold by lia. simpl.
  unfold multi_view_solve, multi_view_matrix.
  destruct (SelfAdjointEigenSolver4 _) as [info V].
  destruct (negb (is_Success info) || d_eqb (coeff V 3 0) d_zero); reflexivity.
Qed.

(** X2: with spans of equal size and a non-null output pointer,
    [TriangulateMultiViewPoint] hands to the eigen solver the zero matrix
    plus one term per view, added in the order of the views, the term of
    view [i] being built from camera [i] and point [i]; what it returns and
    stores is what follows that decomposition.  A further view adds its
    term last; without any view the solver gets the zero matrix. *)
Theorem TriangulateMultiViewPoint_views (cams : list Matrix)
    (points : list Vector2d) (a : N) :
  length cams = length points ->
  TriangulateMultiViewPoint cams points (ptr a)
    = multi_view_solve (multi_view_matrix cams points) (ptr a) /\
  (forall c p,
     multi_view_matrix (cams ++ [c]) (points ++ [p])
       = mat_add (multi_view_matrix cams points) (multi_view_term c p)) /\
  multi_view_matrix [] [] = Matrix4d_Zero.
Proof.
  intros Hlen. split; [|split].
  - apply TriangulateMultiViewPoint_solve. exact Hlen.
  - intros c p. unfold multi_view_matrix.
    rewrite combine_app_eq by exact Hlen. rewrite fold_left_app. reflexivity.
  - reflexivity.
Qed.

(** X3: [TriangulateMidPoint] never throws.  It has no check of its output
    pointer: called with a null pointer it stores through it, which is
    undefined behaviour, exactly when the same call with a valid pointer
    returns true; on every path that returns false the pointer is not
    used. *)
Theorem TriangulateMidPoint_null_pointer (pose : Quaterniond * Vector3d)
    (r1 r2 : Vector3d) (a : N) :
  (forall xyz w e, TriangulateMidPoint pose r1 r2 xyz <> (w, Throw e)) /\
  (TriangulateMidPoint pose r1 r2 nullptr = ([], Undefined) <->
   exists p, TriangulateMidPoint pose r1 r2 (ptr a) = ([(a, p)], Return true)) /\
  (TriangulateMidPoint pose r1 r2 nullptr = ([], Return false) <->
   TriangulateMidPoint pose r1 r2 (ptr a) = ([], Return false)).
Proof.
  unfold TriangulateMidPoint.
  destruct (JacobiSVD3 _) as [info V].
  destruct (eigen_version_at_least_3_4_0 && negb (is_Success info)).
  { split; [intros [|b] w e; discriminate|].
    split; split; intros H; try reflexivity; try discriminate H.
    destruct H as [p H]. discriminate H. }
  destruct (d_eqb (coeff V 2 2) d_zero).
  { split; [intros [|b] w e; discriminate|].
    split; split; intros H; try reflexivity; try discriminate H.
    destruct H as [p H]. discriminate H. }
  destruct (d_leb _ d_epsilon || d_leb _ d_epsilon).
  { split; [intros [|b] w e; discriminate|].
    split; split; intros H; try reflexivity; try discriminate H.
    destruct H as [p H]. discriminate H. }
  split; [intros [|b] w e; discriminate|].
  split; split; intros H; try discriminate H.
  - eexists. reflexivity.
  - reflexivity.
Qed.

(** X4: none of the three functions divides by a coordinate that compares
    equal to zero.  Whenever [TriangulatePoint], [TriangulateMidPoint] or
    [TriangulateMultiViewPoint] returns true, the decomposition of its
    matrix gave a last coordinate ([V(3,3)], [V(2,2)], [eigenvectors(3,0)])
    that is not [== 0], the status of the decomposition was [Success]
    wherever the source tests it, and the call made exactly one store,
    through the output pointer.  [TriangulatePoint] and
    [TriangulateMultiViewPoint] store [hnormalized] of the column of the
    decomposition; [TriangulateMidPoint] takes [lambda], [hnormalized] of
    column 2, finds both its coordinates above [epsilon] and stores
    [0.5 * (lambda(0) * cam_ray1 + cam2_in_cam1 + lambda(1) * cam_ray2_in_cam1)]. *)
Theorem triangulation_division_guard (a : N) :
  (forall c1 c2 p1 p2 w,
     TriangulatePoint c1 c2 p1 p2 (ptr a) = (w, Return true) ->
     exists info V,
       JacobiSVD4 (point_system c1 c2 p1 p2) = (info, V) /\
       d_eqb (coeff V 3 3) d_zero = false /\
       (eigen_version_at_least_3_4_0 = true -> info = Success) /\
       w = [(a, hnormalized4 (col V 3))]) /\
  (forall pose r1 r2 w,
     TriangulateMidPoint pose r1 r2 (ptr a) = (w, Return true) ->
     exists info V,
       JacobiSVD3 (mid_point_system pose r1 r2) = (info, V) /\
       d_eqb (coeff V 2 2) d_zero = false /\
       (eigen_version_at_least_3_4_0 = true -> info = Success) /\
       d_leb (v2_0 (hnormalized3 (col V 2))) d_epsilon = false /\
       d_leb (v2_1 (hnormalized3 (col V 2))) d_epsilon = false /\
       w = [(a, mid_point pose r1 r2 (hnormalized3 (col V 2)))]) /\
  (forall cams points w,
     TriangulateMultiViewPoint cams points (ptr a) = (w, Return true) ->
     length cams = length points /\
     exists info V,
       SelfAdjointEigenSolver4 (multi_view_matrix cams points) = (info, V) /\
       d_eqb (coeff V 3 0) d_zero = false /\
       info = Success /\
       w = [(a, hnormalized4 (col V 0))]).
Proof.
  split; [|split].
  - intros c1 c2 p1 p2 w. unfold TriangulatePoint. simpl.
    fold (point_system c1 c2 p1 p2).
    destruct (JacobiSVD4 (point_system c1 c2 p1 p2)) as [info V].
    destruct (eigen_version_at_least_3_4_0 && negb (is_Success info)) eqn:Hinfo;
      [discriminate|].
    destruct (d_eqb (coeff V 3 3) d_zero) eqn:Hz; [discriminate|].
    simpl. intros H. injection H as <-.
    exists info, V.
    split; [reflexivity|]. split; [exact Hz|]. split; [|reflexivity].
    intros Hv. rewrite Hv in Hinfo. destruct info; simpl in Hinfo; congruence.
  - intros pose r1 r2 w. unfold TriangulateMidPoint.
    fold (mid_point_system pose r1 r2).
    destruct (JacobiSVD3 (mid_point_system pose r1 r2)) as [info V].
    destruct (eigen_version_at_least_3_4_0 && negb (is_Success info)) eqn:Hinfo;
      [discriminate|].
    destruct (d_eqb (coeff V 2 2) d_zero) eqn:Hz; [discriminate|].
    destruct (d_leb (v2_0 (hnormalized3 (col V 2))) d_epsilon
              || d_leb (v2_1 (hnormalized3 (col V 2))) d_epsilon) eqn:Hl;
      [discriminate|].
    apply orb_false_iff in Hl as [Hl0 Hl1].
    simpl. intros H. injection H as <-. exists info, V.
    split; [reflexivity|]. split; [exact Hz|].
    split; [|split; [exact Hl0 | split; [exact Hl1 | reflexivity]]].
    intros Hv. rewrite Hv in Hinfo. destruct info; simpl in Hinfo; congruence.
  - intros cams points w H.
    destruct (Nat.eq_dec (length cams) (length points)) as [Hlen|Hne].
    + split; [exact Hlen|].
      rewrite (TriangulateMultiViewPoint_solve cams points a Hlen) in H.
      unfold multi_view_solve in H.
      destruct (SelfAdjointEigenSolver4 (multi_view_matrix cams points)) as [info V].
      destruct (negb (is_Success info) || d_eqb (coeff V 3 0) d_zero) eqn:Hg;
        [discriminate|].
      apply orb_false_iff in Hg as [Hi Hz].
      simpl in H. injection H as <-.
      exists info, V.
      split; [reflexivity|]. split; [exact Hz|]. split; [|reflexivity].
      destruct info; simpl in Hi; congruence.
    + unfold TriangulateMultiViewPoint, THROW_CHECK_EQ in H.
      rewrite (proj2 (Nat.eqb_neq _ _) Hne) in H. discriminate H.
Qed.

End TriangulationMoreFacts.

(** Two views over the rationals, a solver that succeeds. *)
Lemma TriangulateMultiViewPoint_views_witness :
  @TriangulateMultiViewPoint rational_scalar
     (fixed_kernel Success [[1; 0; 0; 2]; [0; 1; 0; 4]; [0; 0; 1; 6]; [2; 0; 0; 0]]%Q)
     [[]; []] [rational_point 0 0; rational_point 1 1] (ptr 7)
    = @multi_view_solve rational_scalar
        (fixed_kernel Success [[1; 0; 0; 2]; [0; 1; 0; 4]; [0; 0; 1; 6]; [2; 0; 0; 0]]%Q)
        (@multi_view_matrix rational_scalar [[]; []]
           [rational_point 0 0; rational_point 1 1]) (ptr 7).
Proof.
  apply (proj1 (@TriangulateMultiViewPoint_views rational_scalar
    (fixed_kernel Success [[1; 0; 0; 2]; [0; 1; 0; 4]; [0; 0; 1; 6]; [2; 0; 0; 0]]%Q)
    [[]; []] [rational_point 0 0; rational_point 1 1] 7%N eq_refl)).
Defined.

(** A decomposition with [V(3,3) = 5]: [TriangulatePoint] returns true. *)
Lemma triangulation_division_guard_witness :
  exists info V,
    @JacobiSVD4 rational_scalar
      (fixed_kernel Success [[1; 0; 0; 2]; [0; 1; 0; 4]; [0; 0; 1; 6]; [0; 0; 0; 5]]%Q)
      (@point_system rational_scalar [] [] (rational_point 0 0) (rational_point 1 1))
      = (info, V) /\
    @d_eqb rational_scalar (coeff V 3 3) 0%Q = false /\
    (true = true -> info = Success) /\
    [(7%N, @hnormalized4 rational_scalar [2; 4; 6; 5]%Q)]
      = [(7%N, @hnormalized4 rational_scalar (col V 3))].
Proof.
  apply (proj1 (@triangulation_division_guard rational_scalar
    (fixed_kernel Success [[1; 0; 0; 2]; [0; 1; 0; 4]; [0; 0; 1; 6]; [0; 0; 0; 5]]%Q)
    7%N) [] [] (rational_point 0 0) (rational_point 1 1)).
  reflexivity.
Defined.

(** ** The option structs: negative fields *)

Local Open Scope Z_scope.

Lemma CacheSize_exact_int (o : PairingOptions) :
  List.Forall in_int_range (CacheSizeInputs o) ->
  List.Forall in_int_range (CacheSizeProducts o) ->
  CacheSize o = Some (size_t_of_int (CacheSizeExact o)) /\
  in_int_range (CacheSizeExact o).
Proof.
  intros Hin Hp.
  destruct o as [o|o|o|o|o|o]; simpl in *;
    repeat match goal with
           | H : List.Forall _ (_ :: _) |- _ => apply List.Forall_cons_iff in H as [? H]
           end.
  - split; [reflexivity | assumption].
  - unfold VocabTreePairingOptions.CacheSize.
    rewrite int_mul_exact by assumption. split; [reflexivity | assumption].
  - unfold SequentialPairingOptions.CacheSize.
    rewrite !int_mul_exact by assumption. split; [reflexivity|].
    unfold in_int_range in *. lia.
  - unfold SpatialPairingOptions.CacheSize.
    rewrite int_mul_exact by assumption. split; [reflexivity | assumption].
  - unfold TransitivePairingOptions.CacheSize.
    rewrite int_mul_exact by assumption. split; [reflexivity | assumption].
  - split; [reflexivity | assumption].
Qed.

Lemma CacheSize_overflow (o : PairingOptions) :
  ~ List.Forall in_int_range (CacheSizeProducts o) -> CacheSize o = None.
Proof.
  intros Hp.
  destruct o as [o|o|o|o|o|o]; simpl in *.
  - exfalso. apply Hp. constructor.
  - unfold VocabTreePairingOptions.CacheSize.
    rewrite int_mul_overflow; [reflexivity|].
    intros H. apply Hp. constructor; [exact H | constructor].
  - unfold SequentialPairingOptions.CacheSize.
    destruct (int_mul 5 (SequentialPairingOptions.loop_detection_num_images o)) eqn:Ea;
      [|reflexivity].
    destruct (int_mul 5 (SequentialPairingOptions.overlap o)) eqn:Eb; [|reflexivity].
    exfalso. apply Hp. unfold int_mul in Ea, Eb.
    destruct (in_int_rangeb (5 * SequentialPairingOptions.loop_detection_num_images o))
      eqn:Ha; [|discriminate].
    destruct (in_int_rangeb (5 * SequentialPairingOptions.overlap o)) eqn:Hb;
      [|discriminate].
    apply in_int_rangeb_spec in Ha, Hb.
    constructor; [exact Ha | constructor; [exact Hb | constructor]].
  - unfold SpatialPairingOptions.CacheSize.
    rewrite int_mul_overflow; [reflexivity|].
    intros H. apply Hp. constructor; [exact H | constructor].
  - unfold TransitivePairingOptions.CacheSize.
    rewrite int_mul_overflow; [reflexivity|].
    intros H. apply Hp. constructor; [exact H | constructor].
  - exfalso. apply Hp. constructor.
Qed.

(** X6: [CacheSize] neither validates nor clamps.  Given a struct whose
    integer fields are [int]s, [CacheSize] has a value exactly when no
    product it computes ([5 * x], [2 * x]) overflows [int]: always for
    [ExhaustivePairingOptions] and [ImportedPairingOptions], which compute
    none.  The value is that of the [int] expression when it is not
    negative, and [2^64] plus it otherwise, which is at least
    [2^64 - 2^31].  For [SequentialPairingOptions] the expression is the
    larger of the two products, negative only when both fields are. *)
Theorem CacheSize_no_clamp (o : PairingOptions) :
  List.Forall in_int_range (CacheSizeInputs o) ->
  (CacheSize o = None <-> ~ List.Forall in_int_range (CacheSizeProducts o)) /\
  (List.Forall in_int_range (CacheSizeProducts o) ->
   (0 <= CacheSizeExact o -> CacheSize o = Some (CacheSizeExact o)) /\
   (CacheSizeExact o < 0 ->
    CacheSize o = Some (2 ^ 64 + CacheSizeExact o) /\
    2 ^ 64 - 2 ^ 31 <= 2 ^ 64 + CacheSizeExact o)) /\
  (strategy_tag o = 0%nat \/ strategy_tag o = 5%nat ->
   CacheSize o <> None) /\
  (forall s : SequentialPairingOptions.t,
     o = OfSequential s ->
     (CacheSizeExact o < 0 <->
      SequentialPairingOptions.loop_detection_num_images s < 0 /\
      SequentialPairingOptions.overlap s < 0)).
Proof.
  intros Hin. split; [|split; [|split]].
  - split.
    + intros Hnone Hp. destruct (CacheSize_exact_int o Hin Hp) as [Heq _].
      rewrite Heq in Hnone. discriminate Hnone.
    + apply CacheSize_overflow.
  - intros Hp. destruct (CacheSize_exact_int o Hin Hp) as [Heq Hr]. rewrite Heq. split.
    + intros H0. rewrite size_t_of_int_nonneg by assumption. reflexivity.
    + intros Hneg. rewrite size_t_of_int_negative by assumption.
      split; [reflexivity|]. unfold in_int_range in Hr. lia.
  - intros [Ht|Ht]; destruct o; try discriminate Ht; discriminate.
  - intros s ->. simpl. lia.
Qed.

(** [num_images = -1]: the cache size is [2^64 - 5]. *)
Lemma CacheSize_no_clamp_witness :
  CacheSize (OfVocabTree
    (VocabTreePairingOptions.mk (-1) 5 64 0 (-1) EmptyString EmptyString (-1)))
  = Some (2 ^ 64 + 5 * -1) /\
  2 ^ 64 - 2 ^ 31 <= 2 ^ 64 + 5 * -1.
Proof.
  apply (proj1 (proj2 (CacheSize_no_clamp (OfVocabTree
    (VocabTreePairingOptions.mk (-1) 5 64 0 (-1) EmptyString EmptyString (-1)))
    ltac:(repeat constructor; unfold in_int_range; simpl; lia)))
    ltac:(repeat constructor; unfold in_int_range; simpl; lia)).
  simpl. lia.
Defined.

(** ** [RunPointFiltering]: the track-length filter *)

Module PF := PointFiltering.

Lemma sum_Z_map_ext (f g : N -> Z) (l : list N) :
  (forall x, In x l -> f x = g x) -> PF.sum_Z (map f l) = PF.sum_Z (map g l).
Proof.
  induction l as [|x l IH]; intros Hext; simpl; [reflexivity|].
  rewrite (Hext x (or_introl eq_refl)), IH; [reflexivity|].
  intros y Hy. apply Hext. right. exact Hy.
Qed.

Lemma filter_short_tracks_spec (min_track_len : Z) (ids : list N) :
  forall (num : Z) (points : gmap N Z),
    NoDup ids -> (forall id, id ∈ ids -> is_Some (points !! id)) ->
    0 <= num < 2 ^ 64 ->
    exists points',
      PF.filter_short_tracks min_track_len ids num points
        = Some ((num + PF.sum_Z (map (PF.filtered_length min_track_len points) ids))
                  mod 2 ^ 64, points') /\
      forall id,
        points' !! id =
          match points !! id with
          | Some len =>
              if bool_decide (id ∈ ids) && (len <? min_track_len) then None
              else Some len
          | None => None
          end.
Proof.
  unfold PF.filter_short_tracks.
  induction ids as [|id0 rest IH]; intros num points Hnd Hdom Hnum.
  - exists points. simpl. rewrite Z.add_0_r, Z.mod_small by lia. split; [reflexivity|].
    intros id. destruct (points !! id); reflexivity.
  - apply NoDup_cons in Hnd as [Hnotin Hnd].
    destruct (Hdom id0 ltac:(left)) as [len0 Hlen0].
    cbn [fold_left PF.filter_point]. rewrite Hlen0.
    assert (Hrest : forall id, In id rest ->
              PF.filtered_length min_track_len (delete id0 points) id
              = PF.filtered_length min_track_len points id).
    { intros id Hid. unfold PF.filtered_length.
      rewrite lookup_delete_ne; [reflexivity|].
      intros ->. apply Hnotin, list_elem_of_In. exact Hid. }
    destruct (Z.ltb_spec len0 min_track_len) as [Hshort|Hlong].
    + destruct (IH (PF.size_t_add num len0) (delete id0 points) Hnd) as (points' & Hrun & Hlook).
      { intros id Hid. rewrite lookup_delete_ne; [apply Hdom; right; exact Hid|].
        intros ->. contradiction. }
      { unfold PF.size_t_add. apply Z.mod_pos_bound. lia. }
      exists points'. split.
      * rewrite Hrun. f_equal. f_equal.
        rewrite (sum_Z_map_ext _ _ rest Hrest).
        cbn [map PF.sum_Z fold_right].
        unfold PF.filtered_length at 2. rewrite Hlen0.
        replace (len0 <? min_track_len) with true by (symmetry; apply Z.ltb_lt; lia).
        unfold PF.size_t_add. rewrite Zplus_mod_idemp_l. f_equal.
        fold (PF.sum_Z (map (PF.filtered_length min_track_len points) rest)). lia.
      * intros id. rewrite Hlook. destruct (decide (id = id0)) as [->|Hne].
        -- rewrite lookup_delete_eq, Hlen0.
           rewrite (bool_decide_eq_true_2 _ (list_elem_of_here id0 rest)).
           replace (len0 <? min_track_len) with true by (symmetry; apply Z.ltb_lt; lia).
           reflexivity.
        -- rewrite lookup_delete_ne by congruence.
           destruct (points !! id) as [len|]; [|reflexivity].
           rewrite (bool_decide_ext (id ∈ rest) (id ∈ id0 :: rest)); [reflexivity|].
           rewrite elem_of_cons. split; [auto | intros [?|?]; [contradiction | assumption]].
    + destruct (IH num points Hnd) as (points' & Hrun & Hlook).
      { intros id Hid. apply Hdom. right. exact Hid. }
      { exact Hnum. }
      exists points'. split.
      * rewrite Hrun. f_equal. f_equal.
        cbn [map PF.sum_Z fold_right].
        unfold PF.filtered_length at 2. rewrite Hlen0.
        replace (len0 <? min_track_len) with false by (symmetry; apply Z.ltb_ge; lia).
        fold (PF.sum_Z (map (PF.filtered_length min_track_len points) rest)).
        first [reflexivity | f_equal; lia].
      * intros id. rewrite Hlook. destruct (decide (id = id0)) as [->|Hne].
        -- rewrite Hlen0.
           replace (len0 <? min_track_len) with false by (symmetry; apply Z.ltb_ge; lia).
           rewrite !andb_false_r. reflexivity.
        -- destruct (points !! id) as [len|]; [|reflexivity].
           rewrite (bool_decide_ext (id ∈ rest) (id ∈ id0 :: rest)); [reflexivity|].
           rewrite elem_of_cons. split; [auto | intros [?|?]; [contradiction | assumption]].
Qed.

(** X7: the loop of [RunPointFiltering] over the ids of all 3-D points
    never fails to look a point up.  Afterwards a point is in the
    reconstruction exactly when it was there before with a track of at
    least [min_track_len] elements, its track length unchanged, whatever
    the order in which the ids were visited; and [num_filtered] has grown,
    modulo [2^64], by the track lengths of the points deleted. *)
Theorem filter_short_tracks_result (min_track_len : Z) (ids : list N)
    (num : Z) (points : gmap N Z) :
  NoDup ids -> (forall id, id ∈ ids <-> is_Some (points !! id)) ->
  0 <= num < 2 ^ 64 ->
  exists num' points',
    PF.filter_short_tracks min_track_len ids num points = Some (num', points') /\
    num' = (num + PF.sum_Z (map (PF.filtered_length min_track_len points) ids))
             mod 2 ^ 64 /\
    (forall id len,
       points' !! id = Some len <-> points !! id = Some len /\ min_track_len <= len).
Proof.
  intros Hnd Hdom Hnum.
  destruct (filter_short_tracks_spec min_track_len ids num points Hnd
              (fun id H => proj1 (Hdom id) H) Hnum) as (points' & Hrun & Hlook).
  eexists _, points'. split; [exact Hrun|]. split; [reflexivity|].
  intros id len. rewrite Hlook.
  destruct (points !! id) as [len'|] eqn:Hp.
  - assert (Hin : id ∈ ids) by (apply Hdom; rewrite Hp; eauto).
    rewrite (bool_decide_eq_true_2 (id ∈ ids) Hin).
    cbn [andb]. destruct (Z.ltb_spec len' min_track_len) as [Hlt|Hge].
    + split; [discriminate | intros [Heq Hle]; injection Heq as ->; lia].
    + split; [intros Heq; injection Heq as ->; split; [reflexivity | lia]
             | intros [Heq _]; exact Heq].
  - split; [discriminate | intros [H _]; discriminate H].
Qed.

(** Three points with tracks of 1, 2 and 5 elements, [min_track_len = 2]. *)
Lemma filter_short_tracks_result_witness :
  exists num' points',
    PF.filter_short_tracks 2 [10; 20; 30]%N 4
      (<[10%N := 1]> (<[20%N := 2]> (<[30%N := 5]> ∅))) = Some (num', points') /\
    num' = (4 + PF.sum_Z (map (PF.filtered_length 2
              (<[10%N := 1]> (<[20%N := 2]> (<[30%N := 5]> ∅)))) [10; 20; 30]%N))
             mod 2 ^ 64 /\
    (forall id len,
       points' !! id = Some len <->
       (<[10%N := 1]> (<[20%N := 2]> (<[30%N := 5]> (∅ : gmap N Z)))) !! id = Some len
       /\ 2 <= len).
Proof.
  apply (filter_short_tracks_result 2 [10; 20; 30]%N 4
           (<[10%N := 1]> (<[20%N := 2]> (<[30%N := 5]> ∅)))).
  - apply (bool_decide_unpack (NoDup _)). vm_compute. reflexivity.
  - intros id. rewrite !elem_of_cons, elem_of_nil.
    rewrite !lookup_insert_is_Some, lookup_empty, is_Some_alt.
    split; [intros [->|[->|[->|[]]]]; auto 10 | intros H; intuition congruence].
  - lia.
Defined.

(** ** [UpdateDatabasePosePriorsCovariance] *)

Section PosePriorFacts.
Context {Matrix3d Other : Type}.
Abbreviation PosePrior := (PosePriors.PosePrior Matrix3d Other).

Lemma update_prior_lookup (covariance : Matrix3d) (priors : gmap N PosePrior)
    (image_id id : N) :
  PosePriors.update_prior covariance priors image_id !! id
    = if decide (id = image_id)
      then (fun p => PosePriors.mkPosePrior covariance (PosePriors.other_fields p))
             <$> priors !! id
      else priors !! id.
Proof.
  unfold PosePriors.update_prior.
  destruct (decide (id = image_id)) as [->|Hne].
  - destruct (priors !! image_id) as [p|] eqn:Hp.
    + rewrite lookup_insert_eq. reflexivity.
    + rewrite Hp. reflexivity.
  - destruct (priors !! image_id) as [p|]; [|reflexivity].
    rewrite lookup_insert_ne by congruence. reflexivity.
Qed.

Lemma UpdateDatabasePosePriorsCovariance_lookup (images : list N)
    (covariance : Matrix3d) :
  forall (priors : gmap N PosePrior) (id : N),
    PosePriors.UpdateDatabasePosePriorsCovariance images covariance priors !! id
      = if decide (id ∈ images)
        then (fun p => PosePriors.mkPosePrior covariance (PosePriors.other_fields p))
               <$> priors !! id
        else priors !! id.
Proof.
  unfold PosePriors.UpdateDatabasePosePriorsCovariance.
  induction images as [|i0 rest IH]; intros priors id; cbn [fold_left].
  - destruct (decide (id ∈ [])) as [Hin|_]; [inversion Hin | reflexivity].
  - rewrite IH, update_prior_lookup.
    destruct (decide (id = i0)) as [->|Hne].
    + rewrite (decide_True (P := i0 ∈ i0 :: rest)) by (apply list_elem_of_here).
      destruct (decide (i0 ∈ rest)); [|reflexivity].
      destruct (priors !! i0); reflexivity.
    + destruct (decide (id ∈ rest)) as [Hin|Hout].
      * rewrite (decide_True (P := id ∈ i0 :: rest)) by (right; exact Hin).
        reflexivity.
      * rewrite (decide_False (P := id ∈ i0 :: rest)); [reflexivity|].
        rewrite elem_of_cons. intros [?|?]; contradiction.
Qed.

(** X8: [UpdateDatabasePosePriorsCovariance] changes the pose priors of the
    images it visits and nothing else: an image with a prior keeps it with
    the given covariance and all its other fields unchanged, an image
    without a prior still has none (no prior is created or deleted), and
    the priors of images it does not visit stay as they are.  Run a second
    time over the same images it changes nothing. *)
Theorem UpdateDatabasePosePriorsCovariance_frame (images : list N)
    (covariance : Matrix3d) (priors : gmap N PosePrior) :
  let priors' :=
    PosePriors.UpdateDatabasePosePriorsCovariance images covariance priors in
  (forall id prior,
     id ∈ images -> priors !! id = Some prior ->
     priors' !! id
       = Some (PosePriors.mkPosePrior covariance (PosePriors.other_fields prior))) /\
  (forall id, priors !! id = None -> priors' !! id = None) /\
  (forall id, id ∉ images -> priors' !! id = priors !! id) /\
  dom priors' = dom priors /\
  PosePriors.UpdateDatabasePosePriorsCovariance images covariance priors' = priors'.
Proof.
  intros priors'. unfold priors'.
  pose proof (UpdateDatabasePosePriorsCovariance_lookup images covariance) as Hlook.
  split; [|split; [|split; [|split]]].
  - intros id prior Hin Hp. rewrite Hlook, decide_True, Hp by exact Hin. reflexivity.
  - intros id Hp. rewrite Hlook, Hp. destruct (decide (id ∈ images)); reflexivity.
  - intros id Hout. rewrite Hlook, decide_False by exact Hout. reflexivity.
  - apply set_eq. intros id. rewrite !elem_of_dom, Hlook.
    destruct (decide (id ∈ images)); [|reflexivity].
    rewrite fmap_is_Some. reflexivity.
  - apply map_eq. intros id. rewrite !Hlook.
    destruct (decide (id ∈ images)); [|reflexivity].
    destruct (priors !! id); reflexivity.
Qed.

End PosePriorFacts.

(** ** The argument of [std::acos] *)

Section AcosDomain.
Context {scalar : Scalar} {math : ScalarMath}.

(** X9: when [<] on [double] is irreflexive at [-1.0] and [1.0] and
    [1.0 < -1.0] is false, the value
    [CalculateTriangulationAngleWithKnownBaseline] passes to [std::acos] is
    never less than [-1.0] and never greater than [1.0], whatever the
    rounding of the quotient; the function returns [0.0] when its
    denominator compares equal to zero and otherwise the smaller of the
    angle and [M_PI] minus the angle. *)
Theorem triangulation_angle_acos_domain (b : double) (c1 c2 p : Vector3d) :
  d_ltb (d_neg d_one) (d_neg d_one) = false ->
  d_ltb d_one d_one = false ->
  d_ltb d_one (d_neg d_one) = false ->
  d_ltb (angle_cosine b c1 c2 p) (d_neg d_one) = false /\
  d_ltb d_one (angle_cosine b c1 c2 p) = false /\
  CalculateTriangulationAngleWithKnownBaseline b c1 c2 p
    = if d_eqb (angle_denominator c1 c2 p) d_zero then d_zero
      else std_min (d_acos (angle_cosine b c1 c2 p))
                   (d_sub d_pi (d_acos (angle_cosine b c1 c2 p))).
Proof.
  intros Hlo Hhi Hcross. unfold angle_cosine.
  set (q := d_div _ _). unfold std_clamp.
  split; [|split].
  - destruct (d_ltb q (d_neg d_one)) eqn:H1; [exact Hlo|].
    destruct (d_ltb d_one q) eqn:H2; [exact Hcross | exact H1].
  - destruct (d_ltb q (d_neg d_one)) eqn:H1; [exact Hcross|].
    destruct (d_ltb d_one q) eqn:H2; [exact Hhi | exact H2].
  - reflexivity.
Qed.

End AcosDomain.

(** Two cameras on the x axis and a point above them, over the rationals. *)
Lemma triangulation_angle_acos_domain_witness :
  @d_ltb rational_scalar rational_math
    (@angle_cosine rational_scalar rational_math 4%Q
       (rational_vector 0 0 0) (rational_vector 2 0 0) (rational_vector 1 1 0))
    (-1)%Q = false /\
  @d_ltb rational_scalar rational_math 1%Q
    (@angle_cosine rational_scalar rational_math 4%Q
       (rational_vector 0 0 0) (rational_vector 2 0 0) (rational_vector 1 1 0))
    = false.
Proof.
  pose proof (@triangulation_angle_acos_domain rational_scalar rational_math 4%Q
    (rational_vector 0 0 0) (rational_vector 2 0 0) (rational_vector 1 1 0)
    eq_refl eq_refl eq_refl) as H.
  exact (conj (proj1 H) (proj1 (proj2 H))).
Defined.
